(** * resplice_primers: a shallow embedding of [resplice_primers.py]

    The module reads a primer scheme (a BED table), partitions it by
    amplicon, renames repeated primer names ([dedup_primers]), enumerates
    every pairing of spike-in primers ([resolve_primer_names],
    [resplice_primers]) and drops amplicons that lack one orientation
    ([finalize_primer_pairings]).

    Data frames are lists of rows in row order; a list of data frames is a
    list of such lists.  Strings are lists of characters.  Exceptions are
    an explicit result type. *)

From Stdlib Require Import Ascii String Decimal DecimalNat DecimalString.
From Stdlib Require Import List Arith Bool Lia ZArith Permutation.
Import ListNotations.

Set Implicit Arguments.

(** ** Strings *)

Module Str.

Definition str := list ascii.

(** String literals of the source, as character lists. *)
Definition lit (s : string) : str := list_ascii_of_string s.

Definition eqb (a b : str) : bool :=
  if list_eq_dec ascii_dec a b then true else false.

Fixpoint startswith (pat s : str) : bool :=
  match pat, s with
  | [], _ => true
  | _ :: _, [] => false
  | p :: pat', c :: s' => Ascii.eqb p c && startswith pat' s'
  end.

(** Python's [pat in s] on strings. *)
Fixpoint str_in (pat s : str) : bool :=
  startswith pat s ||
  match s with
  | [] => false
  | _ :: s' => str_in pat s'
  end.

(** [s.split(sep)] for a one-character separator: never empty. *)
Fixpoint split (sep : ascii) (s : str) : list str :=
  match s with
  | [] => [[]]
  | c :: s' =>
      if Ascii.eqb c sep then [] :: split sep s'
      else match split sep s' with
           | [] => [[c]]
           | t :: ts => (c :: t) :: ts
           end
  end.

(** [sep.join(ts)]. *)
Fixpoint join (sep : str) (ts : list str) : str :=
  match ts with
  | [] => []
  | t :: ts' =>
      match ts' with
      | [] => t
      | _ :: _ => t ++ sep ++ join sep ts'
      end
  end.

(** The part of [s] before the last occurrence of [sep], if [sep] occurs. *)
Fixpoint before_last (sep : ascii) (s : str) : option str :=
  match s with
  | [] => None
  | c :: s' =>
      match before_last sep s' with
      | Some p => Some (c :: p)
      | None => if Ascii.eqb c sep then Some [] else None
      end
  end.

(** [s.rsplit(sep, 1)[0]]. *)
Definition rsplit1_head (sep : ascii) (s : str) : str :=
  match before_last sep s with
  | Some p => p
  | None => s
  end.

(** [str(n)] / the cast of a row number to [Utf8]: decimal digits. *)
Definition dec (n : nat) : str :=
  lit (NilEmpty.string_of_uint (Nat.to_uint n)).

(** [s.replace(pat, "")] for every non-overlapping occurrence, leftmost
    first, as [str.replace_all(pat, "")] does for a literal pattern.
    [skip] counts the characters of a matched occurrence still to drop. *)
Fixpoint remove_all_from (pat : str) (skip : nat) (s : str) : str :=
  match s with
  | [] => []
  | c :: s' =>
      match skip with
      | S k => remove_all_from pat k s'
      | O =>
          match pat with
          | [] => c :: remove_all_from pat 0 s'
          | _ :: _ =>
              if startswith pat s then remove_all_from pat (length pat - 1) s'
              else c :: remove_all_from pat 0 s'
          end
      end
  end.

Definition remove_all (pat s : str) : str := remove_all_from pat 0 s.

End Str.
Import Str.

Definition underscore : ascii := "_"%char.
Definition dash : ascii := "-"%char.
Definition LEFT_TAG : str := lit "_LEFT".
Definition RIGHT_TAG : str := lit "_RIGHT".

(** ** Data frames *)

(** Exceptions the module can raise. *)
Inductive error : Type :=
| IndexError                 (* list assignment index out of range *)
| ValueError                 (* [pl.concat] of an empty list *)
| ComputeError               (* the join: key types differ, or [m:1] fails *)
| AssertionError (i : nat).  (* the assertion of [resplice_primers] *)

Inductive result (A : Type) : Type :=
| Ok (a : A)
| Raise (e : error).
Arguments Ok {A} a.
Arguments Raise {A} e.

Definition bind {A B} (r : result A) (k : A -> result B) : result B :=
  match r with
  | Ok a => k a
  | Raise e => Raise e
  end.

Notation "x <- r ;; k" := (bind r (fun x => k))
  (at level 61, r at next level, right associativity).

(** One row of the input BED file (seven columns, no header). *)
Record BedRow : Type := mkBed {
  bed_ref : str;
  bed_start : Z;
  bed_stop : Z;
  bed_name : str;
  bed_index : Z;
  bed_sense : str;
  bed_gene : str
}.

(** One row of a working frame.  [NAME] is the join key and is never null;
    every other column is nullable, since a left join fills the columns of
    an unmatched key with nulls. *)
Record PrimerRecord : Type := mkRec {
  Ref : option str;
  Start_Position : option Z;
  Stop_Position : option Z;
  ORIG_NAME : option str;
  NAME : str;
  INDEX : option Z;
  SENSE : option str;
  Gene : option str;
  Amplicon : option str
}.

Definition set_NAME (n : str) (r : PrimerRecord) : PrimerRecord :=
  mkRec (Ref r) (Start_Position r) (Stop_Position r) (ORIG_NAME r) n
        (INDEX r) (SENSE r) (Gene r) (Amplicon r).

(** A frame with the nine working columns. *)
Definition Frame : Type := list PrimerRecord.

(** A frame that also carries the boolean column [duped]. *)
Definition DupedRow : Type := (PrimerRecord * bool)%type.
Definition DFrame : Type := list DupedRow.

Definition names (df : Frame) : list str := map NAME df.
Definition dnames (df : DFrame) : list str := map (fun r => NAME (fst r)) df.

(** [pl.concat(frames)]: vertical concatenation; an empty list of frames
    is an error. *)
Definition pl_concat {A} (frames : list (list A)) : result (list A) :=
  match frames with
  | [] => Raise ValueError
  | _ :: _ => Ok (concat frames)
  end.

(** [Series.is_duplicated()]: a value is flagged when it occurs more than
    once in the column. *)
Definition count_name (n : str) (col : list str) : nat :=
  count_occ (list_eq_dec ascii_dec) col n.

Definition is_duplicated (col : list str) : list bool :=
  map (fun n => 1 <? count_name n col) col.

(** [True in flags]. *)
Definition any_true (flags : list bool) : bool := existsb (fun b => b) flags.

(** [df.partition_by(key)] keeps the keys in order of first appearance and
    the rows of each part in row order. *)
Section PartitionBy.
Context {R K : Type}.
Variable keqb : K -> K -> bool.
Variable key : R -> K.

Fixpoint add_row (r : R) (parts : list (K * list R)) : list (K * list R) :=
  match parts with
  | [] => [(key r, [r])]
  | (k, rows) :: rest =>
      if keqb k (key r) then (k, rows ++ [r]) :: rest
      else (k, rows) :: add_row r rest
  end.

Definition partition_by (df : list R) : list (list R) :=
  map snd (fold_left (fun parts r => add_row r parts) df []).
End PartitionBy.

Definition opt_str_eqb (a b : option str) : bool :=
  match a, b with
  | Some x, Some y => Str.eqb x y
  | None, None => true
  | _, _ => false
  end.

(** ** [dedup_primers] *)

(** [df.with_row_count(offset)]: number the rows from [offset]. *)
Fixpoint with_row_count {A} (offset : nat) (rows : list A) : list (nat * A) :=
  match rows with
  | [] => []
  | r :: rs => (offset, r) :: with_row_count (S offset) rs
  end.

(** [concat_str([NAME, row_nr], separator="-")] on one numbered row. *)
Definition rename_row (p : nat * DupedRow) : DupedRow :=
  let '(k, (r, d)) := p in (set_NAME (NAME r ++ lit "-" ++ dec k) r, d).

(** The frame [renamed] built from [dup_frame]. *)
Definition renamed (dup_frame : DFrame) : DFrame :=
  map rename_row (with_row_count 1 dup_frame).

(** [df.with_columns(df.select("NAME").is_duplicated().alias("duped"))]. *)
Definition with_duped (df : DFrame) : DFrame :=
  combine (map fst df) (is_duplicated (dnames df)).

(** [True in df.select("NAME").is_duplicated().to_list()]. *)
Definition has_duplicates (df : DFrame) : bool :=
  any_true (is_duplicated (dnames df)).

(** The inner loop [for i, dup_frame in enumerate(new_dfs)].  It rebinds
    the variable [i] of the enclosing loop: [i] is the value of that
    variable on entry, [j] the next index [enumerate] yields.  The result
    is the value of [i] when the loop ends and the updated [new_dfs]. *)
Fixpoint rename_loop (i j : nat) (new_dfs : list DFrame) : nat * list DFrame :=
  match new_dfs with
  | [] => (i, [])
  | dup_frame :: rest =>
      let dup_frame' :=
        if any_true (map snd dup_frame) then renamed dup_frame else dup_frame in
      let '(i', rest') := rename_loop j (S j) rest in
      (i', dup_frame' :: rest')
  end.

(** [lst[i] = x]: an index past the end raises [IndexError]. *)
Fixpoint list_set {A} (l : list A) (i : nat) (x : A) : option (list A) :=
  match l, i with
  | [], _ => None
  | _ :: t, O => Some (x :: t)
  | h :: t, S i' => option_map (cons h) (list_set t i' x)
  end.

(** The body of the outer loop for one frame with repeated names: the
    value of [i] after the inner loop, and the frame [pl.concat(new_dfs)]. *)
Definition dedup_body (k : nat) (df : DFrame) : nat * result DFrame :=
  let new_dfs := partition_by Bool.eqb snd (with_duped df) in
  let '(i, new_dfs') := rename_loop k 0 new_dfs in
  (i, pl_concat new_dfs').

(** The outer loop [for i, df in enumerate(partitioned_bed)] over the
    caller's list, which it overwrites in place: [bed] is the current
    content of that list, [k] the index the iterator is at and [todo] the
    number of entries it has yet to yield.  The result is the content of the
    list when the loop ends or raises, and the exception if any. *)
Fixpoint dedup_loop (todo k : nat) (bed : list DFrame)
  : list DFrame * option error :=
  match todo with
  | O => (bed, None)
  | S todo' =>
      match nth_error bed k with
      | None => (bed, None)
      | Some df =>
          if has_duplicates df then
            match dedup_body k df with
            | (_, Raise e) => (bed, Some e)
            | (i, Ok df') =>
                match list_set bed i df' with
                | None => (bed, Some IndexError)
                | Some bed' => dedup_loop todo' (S k) bed'
                end
            end
          else dedup_loop todo' (S k) bed
      end
  end.

(** [pl.concat(partitioned_bed).drop("duped").partition_by("Amplicon")]. *)
Definition repartition (bed : list DFrame) : result (list Frame) :=
  all <- pl_concat bed ;;
  Ok (partition_by opt_str_eqb Amplicon (map fst all)).

(** [dedup_primers(partitioned_bed)]: the content of the caller's list
    afterwards, and the returned value or the exception raised. *)
Definition dedup_primers_st (partitioned_bed : list DFrame)
  : list DFrame * result (list Frame) :=
  match dedup_loop (List.length partitioned_bed) 0 partitioned_bed with
  | (bed', Some e) => (bed', Raise e)
  | (bed', None) => (bed', repartition bed')
  end.

Definition dedup_primers (partitioned_bed : list DFrame) : result (list Frame) :=
  snd (dedup_primers_st partitioned_bed).

(** ** [resolve_primer_names] *)

(** [enumerate(l)], counting from [start]. *)
Fixpoint enumerate {A} (start : nat) (l : list A) : list (nat * A) :=
  match l with
  | [] => []
  | x :: xs => (start, x) :: enumerate (S start) xs
  end.

(** The new name of one primer of the pairing at position [i]:
    ["_".join(p.split("_")[:-1]).rsplit("-", 1)[0] + "_splice" + f"{i + 1}"
     + "_" + p.split("_")[-1]]. *)
Definition splice_name (i : nat) (p : str) : str :=
  rsplit1_head dash (join [underscore] (removelast (split underscore p)))
  ++ lit "_splice" ++ dec (i + 1) ++ lit "_" ++ last (split underscore p) [].

Definition resolve_primer_names (to_combine combine_to : list str)
  : list str * list str :=
  let primer_pairs := list_prod to_combine combine_to in
  let primers_to_join := map fst primer_pairs ++ map snd primer_pairs in
  let new_primer_pairs :=
    map (fun '(i, item) => (splice_name i (fst item), splice_name i (snd item)))
        (enumerate 0 primer_pairs) in
  let new_primer_names := map fst new_primer_pairs ++ map snd new_primer_pairs in
  (primers_to_join, new_primer_names).

(** ** [resplice_primers] *)

(** The row a left join yields for a key no row of the right frame has. *)
Definition null_row (k : str) : PrimerRecord :=
  mkRec None None None None k None None None None.

Definition has_repeated_name (df : Frame) : bool :=
  any_true (is_duplicated (names df)).

(** [pl.DataFrame({"NAME": keys}).join(df, how="left", on="NAME",
    validate="m:1")]: one row per key, in key order.  The join raises when
    [keys] is empty, since the column [pl.DataFrame] builds from an empty
    list is not a string column and the key columns must agree in type, and
    when a name occurs twice in [df], since the validation fails. *)
Definition join_left (keys : list str) (df : Frame) : result Frame :=
  match keys with
  | [] => Raise ComputeError
  | _ :: _ =>
      if has_repeated_name df then Raise ComputeError
      else Ok (map (fun k =>
                      match find (fun r => Str.eqb (NAME r) k) df with
                      | Some r => r
                      | None => null_row k
                      end) keys)
  end.

(** [.with_columns(pl.Series(new_names).alias("NAME"))]. *)
Definition with_names (rows : Frame) (new_names : list str) : Frame :=
  map (fun '(r, n) => set_NAME n r) (combine rows new_names).

Definition fwd_primers (df : Frame) : list str := filter (str_in LEFT_TAG) (names df).
Definition rev_primers (df : Frame) : list str := filter (str_in RIGHT_TAG) (names df).

(** What one iteration of the loop of [resplice_primers] does. *)
Inductive step : Type :=
| Append (df : Frame)   (* [mutated_frames.append(df)] *)
| Break                 (* [break] *)
| Throw (e : error).

Definition resplice_new_df (i : nat) (df : Frame) (to_combine combine_to : list str)
  : step :=
  let '(primers_to_join, new_primer_names) :=
    resolve_primer_names to_combine combine_to in
  if negb (List.length primers_to_join =? List.length new_primer_names)
  then Throw (AssertionError i)
  else match join_left primers_to_join df with
       | Raise e => Throw e
       | Ok joined => Append (with_names joined new_primer_names)
       end.

(** [df.shape[0] % 2 != 0]. *)
Definition odd_count (df : Frame) : bool := negb (List.length df mod 2 =? 0).

Definition resplice_group (i : nat) (df : Frame) : step :=
  if odd_count df then
    let fwd := fwd_primers df in
    let rev := rev_primers df in
    if List.length rev <? List.length fwd then resplice_new_df i df rev fwd
    else if List.length fwd <? List.length rev then resplice_new_df i df fwd rev
    else Break
  else Append df.

Fixpoint resplice_loop (i : nat) (frames mutated_frames : list Frame)
  : result (list Frame) :=
  match frames with
  | [] => Ok mutated_frames
  | df :: rest =>
      match resplice_group i df with
      | Append new_df => resplice_loop (S i) rest (mutated_frames ++ [new_df])
      | Break => Ok mutated_frames
      | Throw e => Raise e
      end
  end.

Definition resplice_primers (dedup_partitioned : list Frame) : result (list Frame) :=
  resplice_loop 0 dedup_partitioned [].

(** ** [finalize_primer_pairings] *)

Definition fwd_keepers (df : Frame) : list str := filter (str_in LEFT_TAG) (names df).
Definition rev_keepers (df : Frame) : list str := filter (str_in RIGHT_TAG) (names df).

Fixpoint finalize_loop (frames final_frames : list Frame) : list Frame :=
  match frames with
  | [] => final_frames
  | df :: rest =>
      if (0 <? List.length (fwd_keepers df)) && (0 <? List.length (rev_keepers df))
      then finalize_loop rest (final_frames ++ [df])
      else finalize_loop rest final_frames
  end.

(** The list [final_frames] when the loop ends. *)
Definition final_frames (mutated_frames : list Frame) : list Frame :=
  finalize_loop mutated_frames [].

Definition finalize_primer_pairings (mutated_frames : list Frame) : result Frame :=
  pl_concat (final_frames mutated_frames).

(** ** [main] *)

(** The [Amplicon] column: the name without the orientation tags and the
    spike-in suffixes. *)
Definition amplicon_of (name : str) : str :=
  remove_all (lit "-4") (remove_all (lit "-3") (remove_all (lit "-2")
    (remove_all RIGHT_TAG (remove_all LEFT_TAG name)))).

Definition ingest_row (x : BedRow) : PrimerRecord :=
  mkRec (Some (bed_ref x)) (Some (bed_start x)) (Some (bed_stop x))
        (Some (bed_name x)) (bed_name x) (Some (bed_index x))
        (Some (bed_sense x)) (Some (bed_gene x))
        (Some (amplicon_of (bed_name x))).

(** The frames [partitioned_bed] that [main] builds from the input rows. *)
Definition ingest (rows : list BedRow) : list DFrame :=
  let recs := map ingest_row rows in
  partition_by opt_str_eqb (fun r : DupedRow => Amplicon (fst r))
    (combine recs (is_duplicated (names recs))).

(** The frame [final_df] of [main]. *)
Definition final_df (rows : list BedRow) : result Frame :=
  dedup_partitioned <- dedup_primers (ingest rows) ;;
  mutated_frames <- resplice_primers dedup_partitioned ;;
  finalize_primer_pairings mutated_frames.

(** ** Notions used in the statements *)

(** The rows of a frame whose name is repeated in it, and the others, each
    with the flag [with_duped] gives them. *)
Definition duplicated_subset (df : DFrame) : DFrame :=
  filter (fun r => snd r) (with_duped df).

Definition unique_subset (df : DFrame) : DFrame :=
  filter (fun r => negb (snd r)) (with_duped df).

(** Whether the first row of a frame has a repeated name: it decides which
    part [partition_by("duped")] lists first. *)
Definition first_row_duplicated (df : DFrame) : bool :=
  match with_duped df with
  | (_, d) :: _ => d
  | [] => false
  end.

(** The renaming as the specification words it: the rank of a row is its
    1-based position among the rows of the duplicated subset that share
    its name. *)
Definition spec_name_rank (col : list str) (j : nat) (n : str) : nat :=
  1 + count_name n (firstn j col).

Definition spec_renamed (dup_frame : DFrame) : DFrame :=
  map (fun '(j, (r, d)) =>
         (set_NAME (NAME r ++ lit "-"
                    ++ dec (spec_name_rank (dnames dup_frame) j (NAME r))) r, d))
      (enumerate 0 dup_frame).

(** [r] is the row [r0] under a possibly different [NAME]: every other
    column, [ORIG_NAME] among them, is the same. *)
Definition renames (r r0 : PrimerRecord) : Prop := r = set_NAME (NAME r) r0.

(** [r] is one of the ingested input rows, up to [NAME]. *)
Definition ingested_from (rows : list BedRow) (r : PrimerRecord) : Prop :=
  exists x, In x rows /\ renames r (ingest_row x).

(** Every row of every frame satisfies [P]. *)
Definition all_rows (P : PrimerRecord -> Prop) (bed : list DFrame) : Prop :=
  forall df rd, In df bed -> In rd df -> P (fst rd).

Definition all_frame_rows (P : PrimerRecord -> Prop) (frames : list Frame) : Prop :=
  forall df r, In df frames -> In r df -> P r.

(** [NAME] is at least as long as the name kept in [ORIG_NAME], as it is in
    a row that was ingested and then renamed any number of times. *)
Definition name_kept (r : PrimerRecord) : Prop :=
  exists o, ORIG_NAME r = Some o /\ List.length o <= List.length (NAME r).

(** [NAME] is longer than the name kept in [ORIG_NAME]. *)
Definition name_grown (r : PrimerRecord) : Prop :=
  exists o, ORIG_NAME r = Some o /\ List.length o < List.length (NAME r).

(** [q] occurs in [s] as a substring. *)
Definition occurs (q s : str) : Prop := exists x y, s = x ++ q ++ y.

Definition SPLICE_TAG : str := lit "_splice".

(** The token [_splice{k}_]. *)
Definition splice_token (k : nat) : str := lit "_splice" ++ dec k ++ lit "_".

(** [splice{k}], the token without its underscores. *)
Definition splice_word (k : nat) : str := lit "splice" ++ dec k.
Arguments splice_word : simpl never.

(** [p.split("_")[-1]]. *)
Definition last_token (p : str) : str := last (split underscore p) [].

(** The part of a name that [splice_name] keeps in front of the token:
    ["_".join(p.split("_")[:-1]).rsplit("-", 1)[0]]. *)
Definition splice_base (p : str) : str :=
  rsplit1_head dash (join [underscore] (removelast (split underscore p))).

(** A name of one orientation only, whose last token begins with it. *)
Definition forward_name (p : str) : bool :=
  str_in LEFT_TAG p && negb (str_in RIGHT_TAG p) &&
  startswith (lit "LEFT") (last_token p).

Definition reverse_name (p : str) : bool :=
  str_in RIGHT_TAG p && negb (str_in LEFT_TAG p) &&
  startswith (lit "RIGHT") (last_token p).

(** How many names of a column contain both [tag] and [_splice{k}_]. *)
Definition count_spliced (tag : str) (k : nat) (col : list str) : nat :=
  List.length (filter (fun p => str_in tag p && str_in (splice_token k) p) col).

(** The new names of one side of the pairings, numbered from [start]:
    [f] picks the side of a pair. *)
Definition side_names (f : str * str -> str) (start : nat)
    (primer_pairs : list (str * str)) : list str :=
  map (fun '(i, item) => splice_name i (f item)) (enumerate start primer_pairs).

(** ** Example data *)

Definition bed_row (name : string) : BedRow :=
  mkBed (lit "MN908947.3") 30%Z 54%Z (lit name) 1%Z (lit "+") (lit "orf1ab").

(** The row [main] ingests for the primer [orig], under the name [name]. *)
Definition primer_as (orig name : string) : PrimerRecord :=
  set_NAME (lit name) (ingest_row (bed_row orig)).

Definition primer (name : string) : PrimerRecord := primer_as name name.

Definition rows_amp1 : list BedRow :=
  [bed_row "AMP1_LEFT"; bed_row "AMP1_RIGHT"; bed_row "AMP1_RIGHT-2"].

Definition amp1 : Frame :=
  [primer "AMP1_LEFT"; primer "AMP1_RIGHT"; primer "AMP1_RIGHT-2"].

Definition amp3 : Frame := [primer "AMP3_LEFT"; primer "AMP3_RIGHT"].

(** Input tables with repeated primer names. *)
Definition rows_dup_first : list BedRow :=
  [bed_row "AMP2_LEFT"; bed_row "AMP2_LEFT"; bed_row "AMP2_RIGHT";
   bed_row "AMP3_LEFT"; bed_row "AMP3_RIGHT"].

Definition rows_dup_second : list BedRow :=
  [bed_row "AMP3_LEFT"; bed_row "AMP3_RIGHT";
   bed_row "AMP2_LEFT"; bed_row "AMP2_LEFT"; bed_row "AMP2_RIGHT"].

Definition rows_two_names : list BedRow :=
  [bed_row "AMP4_LEFT"; bed_row "AMP4_LEFT";
   bed_row "AMP4_RIGHT"; bed_row "AMP4_RIGHT"].

Definition amp4_repeated : DFrame :=
  [(primer "AMP4_LEFT", true); (primer "AMP4_LEFT", true);
   (primer "AMP4_RIGHT", true); (primer "AMP4_RIGHT", true)].

(** An odd group with one forward primer, one reverse primer and a row of
    no orientation. *)
Definition amp5_degenerate : Frame :=
  [primer "AMP5_LEFT"; primer "AMP5_RIGHT"; primer "AMP5-2"].

(** A group of four, and a row of no orientation of the same amplicon. *)
Definition amp6 : Frame :=
  [primer "AMP6_LEFT"; primer "AMP6_RIGHT";
   primer "AMP6_RIGHT-2"; primer "AMP6_RIGHT-3"].

Definition amp6_alt : PrimerRecord := primer "AMP6-4".

(** An odd group whose primer names already hold a splice token. *)
Definition amp7 : Frame :=
  [primer "AMP7_splice2_LEFT"; primer "AMP7_splice2_RIGHT";
   primer "AMP7_splice2_RIGHT-2"].

(** An odd group with a primer name whose orientation tag is not in its
    last token and is cut off with the spike-in suffix. *)
Definition amp8 : Frame :=
  [primer "AMP8-2_LEFT_alt"; primer "AMP8_alt_RIGHT";
   primer "AMP8_alt_RIGHT-2"].

(** An odd group in which a name is repeated (two forward, one reverse). *)
Definition amp2_repeated : Frame :=
  [primer "AMP2_LEFT"; primer "AMP2_LEFT"; primer "AMP2_RIGHT"].


Definition amp9_forward_only : Frame :=
  [primer "AMP9_LEFT"; primer "AMP9_LEFT-2"; primer "AMP9_LEFT-3"].


(** ** Notions used in the further properties *)

(** The keys of a frame in order of first appearance. *)
Definition add_key {K} (keqb : K -> K -> bool) (ks : list K) (k : K) : list K :=
  if existsb (fun k' => keqb k' k) ks then ks else ks ++ [k].

Definition first_seen_keys {R K} (keqb : K -> K -> bool) (key : R -> K)
    (df : list R) : list K :=
  fold_left (fun ks r => add_key keqb ks (key r)) df [].

(** The rows of a frame with a given key, in row order. *)
Definition rows_with_key {R K} (keqb : K -> K -> bool) (key : R -> K)
    (k : K) (df : list R) : list R :=
  filter (fun r => keqb k (key r)) df.

(** The table [main] partitions: the ingested rows with the column
    [duped]. *)
Definition ingest_table (rows : list BedRow) : DFrame :=
  combine (map ingest_row rows) (is_duplicated (names (map ingest_row rows))).

Definition amplicon_key (rd : DupedRow) : option str := Amplicon (fst rd).


(** An input table whose third amplicon has a repeated primer name. *)
Definition rows_dup_third : list BedRow :=
  [bed_row "AMP3_LEFT"; bed_row "AMP3_RIGHT";
   bed_row "AMP1_LEFT"; bed_row "AMP1_RIGHT";
   bed_row "AMP2_LEFT"; bed_row "AMP2_LEFT"; bed_row "AMP2_RIGHT"].


(** A balanced table of two amplicons. *)
Definition rows_balanced : list BedRow :=
  [bed_row "AMP1_LEFT"; bed_row "AMP3_LEFT";
   bed_row "AMP1_RIGHT"; bed_row "AMP3_RIGHT"].


(** * Properties *)

(** ** The resolver loop *)

Lemma resplice_loop_app_break (df : Frame) (post : list Frame) :
  (forall i, resplice_group i df = Break) ->
  forall pre i acc,
    resplice_loop i (pre ++ df :: post) acc = resplice_loop i pre acc.
Proof.
  intros Hbrk pre; induction pre as [|g pre IH]; intros i acc; simpl.
  - now rewrite Hbrk.
  - destruct (resplice_group i g); auto.
Qed.

Lemma resplice_loop_extends :
  forall frames i acc out,
    resplice_loop i frames acc = Ok out -> exists tl, out = acc ++ tl.
Proof.
  induction frames as [|g frames IH]; intros i acc out H; simpl in H.
  - inversion H; subst. exists []. now rewrite app_nil_r.
  - destruct (resplice_group i g) eqn:E; try discriminate.
    + apply IH in H. destruct H as [tl ->]. exists (df :: tl).
      now rewrite <- app_assoc.
    + inversion H; subst. exists []. now rewrite app_nil_r.
Qed.

Lemma resplice_loop_length :
  forall frames i acc out,
    resplice_loop i frames acc = Ok out ->
    List.length out <= List.length acc + List.length frames.
Proof.
  induction frames as [|g frames IH]; intros i acc out H; simpl in H.
  - inversion H; subst. lia.
  - destruct (resplice_group i g) eqn:E; try discriminate.
    + apply IH in H. rewrite length_app in H. simpl in *. lia.
    + inversion H; subst. simpl. lia.
Qed.

Lemma degenerate_breaks (df : Frame) :
  odd_count df = true ->
  List.length (fwd_primers df) = List.length (rev_primers df) ->
  forall i, resplice_group i df = Break.
Proof.
  intros Hodd Heq i. unfold resplice_group. rewrite Hodd, Heq.
  now rewrite Nat.ltb_irrefl.
Qed.

(** C1. A group with an odd record count and as many forward as reverse
    primers stops the resolver: the output for a list holding such a group
    is the output for the groups before it, so that group and every group
    after it contribute nothing. *)
Theorem degenerate_group_stops_the_run (pre post : list Frame) (df : Frame) :
  odd_count df = true ->
  List.length (fwd_primers df) = List.length (rev_primers df) ->
  resplice_primers (pre ++ df :: post) = resplice_primers pre /\
  (forall out, resplice_primers (pre ++ df :: post) = Ok out ->
               List.length out <= List.length pre).
Proof.
  intros Hodd Heq.
  assert (E : resplice_primers (pre ++ df :: post) = resplice_primers pre).
  { unfold resplice_primers.
    apply resplice_loop_app_break, degenerate_breaks; assumption. }
  split; [exact E|].
  intros out H. rewrite E in H.
  apply resplice_loop_length in H. simpl in H. exact H.
Qed.

Lemma degenerate_group_stops_the_run_witness :
  resplice_primers ([amp3] ++ amp5_degenerate :: [amp1]) = resplice_primers [amp3] /\
  (forall out, resplice_primers ([amp3] ++ amp5_degenerate :: [amp1]) = Ok out ->
               List.length out <= List.length [amp3]).
Proof.
  apply (@degenerate_group_stops_the_run [amp3] [amp1] amp5_degenerate);
    reflexivity.
Defined.

Lemma resplice_loop_all_appended :
  forall pre i acc out rest,
    resplice_loop i pre acc = Ok out ->
    List.length out = List.length acc + List.length pre ->
    resplice_loop i (pre ++ rest) acc =
      resplice_loop (i + List.length pre) rest out.
Proof.
  induction pre as [|g pre IH]; intros i acc out rest H Hlen; simpl in *.
  - inversion H; subst. now rewrite Nat.add_0_r.
  - destruct (resplice_group i g) as [new_df| |e] eqn:E; try discriminate.
    + rewrite (IH (S i) (acc ++ [new_df]) out rest H).
      * now rewrite Nat.add_succ_r.
      * rewrite length_app. simpl. lia.
    + inversion H; subst. lia.
Qed.

(** C7 (amended). A group with an even record count that the loop of the
    resolver reaches, the resolver returning one frame for each group
    before it, is appended as it is: the loop body returns the very frame,
    the output for the list that ends with the group ends with it, the loop
    goes on with the frame added to the frames made of the groups before
    it, and any output the resolver returns holds the frame, unchanged, at
    the position the group has in the input. *)
Theorem even_group_passes_through (pre mutated : list Frame) (df : Frame) :
  odd_count df = false ->
  resplice_primers pre = Ok mutated ->
  List.length mutated = List.length pre ->
  (forall i, resplice_group i df = Append df) /\
  resplice_primers (pre ++ [df]) = Ok (mutated ++ [df]) /\
  (forall post,
      resplice_primers (pre ++ df :: post) =
        resplice_loop (S (List.length pre)) post (mutated ++ [df])) /\
  (forall post out,
      resplice_primers (pre ++ df :: post) = Ok out ->
      nth_error out (List.length pre) = Some df).
Proof.
  intros Heven Hpre Hlen.
  assert (E : forall i, resplice_group i df = Append df).
  { intros i. unfold resplice_group. now rewrite Heven. }
  assert (L : forall post,
             resplice_primers (pre ++ df :: post) =
               resplice_loop (S (List.length pre)) post (mutated ++ [df])).
  { intros post. unfold resplice_primers in *.
    rewrite (@resplice_loop_all_appended pre 0 [] mutated (df :: post) Hpre Hlen).
    simpl. now rewrite E. }
  split; [exact E|]. split; [|split].
  - rewrite L. reflexivity.
  - exact L.
  - intros post out H. rewrite L in H.
    apply resplice_loop_extends in H. destruct H as [tl ->].
    rewrite <- Hlen, <- app_assoc, nth_error_app2 by lia.
    now rewrite Nat.sub_diag.
Qed.

Lemma even_group_passes_through_witness :
  exists mutated,
    resplice_primers [amp1] = Ok mutated /\
    resplice_primers ([amp1] ++ [amp3]) = Ok (mutated ++ [amp3]) /\
    (forall post out,
        resplice_primers ([amp1] ++ amp3 :: post) = Ok out ->
        nth_error out (List.length [amp1]) = Some amp3).
Proof.
  pose proof (@even_group_passes_through [amp1] _ amp3 eq_refl eq_refl eq_refl)
    as [_ [H1 [_ H2]]].
  eexists. split; [reflexivity|]. split; [exact H1|exact H2].
Defined.

(** C7 (as stated) fails: an even group that comes after a degenerate group
    is not in the output of the resolver, since the loop has stopped before
    it; after a group on which the join raises there is no output at all. *)
Lemma even_group_after_a_stop_is_dropped :
  odd_count amp3 = false /\
  resplice_primers [amp5_degenerate; amp3] = Ok [] /\
  ~ (exists out,
       resplice_primers [amp5_degenerate; amp3] = Ok out /\ In amp3 out) /\
  resplice_primers [amp2_repeated; amp3] = Raise ComputeError.
Proof.
  split; [reflexivity|]. split; [reflexivity|]. split; [|reflexivity].
  intros [out [H Hin]]. vm_compute in H. inversion H; subst out.
  destruct Hin.
Qed.

(** ** The finalizer *)

Lemma filter_nonempty_iff {A} (f : A -> bool) (l : list A) :
  (0 <? List.length (filter f l)) = existsb f l.
Proof.
  induction l as [|a l IH]; simpl; auto.
  destruct (f a); simpl; auto.
Qed.

Lemma finalize_loop_filter (keep : Frame -> bool) :
  (forall df, keep df =
     (0 <? List.length (fwd_keepers df)) && (0 <? List.length (rev_keepers df))) ->
  forall frames acc, finalize_loop frames acc = acc ++ filter keep frames.
Proof.
  intros Hkeep frames; induction frames as [|df frames IH]; intros acc; simpl.
  - now rewrite app_nil_r.
  - rewrite Hkeep.
    destruct ((0 <? List.length (fwd_keepers df)) &&
              (0 <? List.length (rev_keepers df))).
    + rewrite IH, <- app_assoc. reflexivity.
    + apply IH.
Qed.

(** C6. The finalizer keeps a frame exactly when one of its names contains
    [_LEFT] and one contains [_RIGHT]: the kept frames are the input frames
    that pass this test, in input order, the returned frame is their
    concatenation, and so every kept frame has a name of each kind. *)
Theorem finalizer_keeps_complete_groups (mutated_frames : list Frame) :
  final_frames mutated_frames =
    filter (fun df => existsb (str_in LEFT_TAG) (names df) &&
                      existsb (str_in RIGHT_TAG) (names df)) mutated_frames /\
  (forall df,
      In df (final_frames mutated_frames) <->
      In df mutated_frames /\
      (exists n, In n (names df) /\ str_in LEFT_TAG n = true) /\
      (exists n, In n (names df) /\ str_in RIGHT_TAG n = true)) /\
  (forall out,
      finalize_primer_pairings mutated_frames = Ok out ->
      out = concat (final_frames mutated_frames)).
Proof.
  assert (E : final_frames mutated_frames =
    filter (fun df => existsb (str_in LEFT_TAG) (names df) &&
                      existsb (str_in RIGHT_TAG) (names df)) mutated_frames).
  { unfold final_frames. rewrite finalize_loop_filter with (keep :=
      fun df => existsb (str_in LEFT_TAG) (names df) &&
                existsb (str_in RIGHT_TAG) (names df)); [reflexivity|].
    intros df. unfold fwd_keepers, rev_keepers.
    now rewrite !filter_nonempty_iff. }
  split; [exact E|]. split.
  - intros df. rewrite E, filter_In, andb_true_iff, !existsb_exists.
    tauto.
  - intros out H. unfold finalize_primer_pairings, pl_concat in H.
    destruct (final_frames mutated_frames); [discriminate|].
    now inversion H.
Qed.

(** ** The deduplicator *)

Lemma any_true_false_iff (flags : list bool) :
  any_true flags = false <-> forall b, In b flags -> b = false.
Proof.
  unfold any_true; induction flags as [|b flags IH]; simpl.
  - split; [intros _ b []|reflexivity].
  - rewrite orb_false_iff, IH. split.
    + intros [Hb H] c [<-|Hc]; auto.
    + intros H. split; [apply H|intros c Hc; apply H]; auto.
Qed.

Lemma dedup_loop_without_duplicates (bed : list DFrame) :
  (forall df, In df bed -> has_duplicates df = false) ->
  forall todo k, dedup_loop todo k bed = (bed, None).
Proof.
  intros Hno todo; induction todo as [|todo IH]; intros k; simpl; auto.
  destruct (nth_error bed k) as [df|] eqn:E; auto.
  rewrite (Hno df (nth_error_In _ _ E)). apply IH.
Qed.

Lemma length_list_set {A} (l : list A) :
  forall i x l', list_set l i x = Some l' -> List.length l' = List.length l.
Proof.
  induction l as [|a l IH]; intros [|i] x l' E; simpl in E; try discriminate.
  - now inversion E.
  - destruct (list_set l i x) as [t|] eqn:Et; [|discriminate].
    inversion E; subst. simpl. f_equal. eapply IH; eauto.
Qed.

(** The loop never changes the length of the list, so the iterator yields
    exactly as many entries as the list had on entry. *)
Lemma dedup_loop_length (todo : nat) :
  forall k bed,
    List.length (fst (dedup_loop todo k bed)) = List.length bed.
Proof.
  induction todo as [|todo IH]; intros k bed; simpl; [reflexivity|].
  destruct (nth_error bed k) as [df|]; [|reflexivity].
  destruct (has_duplicates df); [|apply IH].
  destruct (dedup_body k df) as [i [df'|e]]; [|reflexivity].
  destruct (list_set bed i df') as [bed'|] eqn:El; [|reflexivity].
  rewrite IH. eapply length_list_set; eauto.
Qed.

(** C2. With the repeated name in the first of two amplicons, the renamed
    frame is stored over the second amplicon; the returned partition has a
    single group, which holds the first amplicon's rows twice, once under
    their old names. *)
Theorem dedup_repeated_names_in_first_group :
  map dnames (ingest rows_dup_first) =
    [[lit "AMP2_LEFT"; lit "AMP2_LEFT"; lit "AMP2_RIGHT"];
     [lit "AMP3_LEFT"; lit "AMP3_RIGHT"]] /\
  dedup_primers (ingest rows_dup_first) =
    Ok [[primer "AMP2_LEFT"; primer "AMP2_LEFT";
         primer "AMP2_RIGHT";
         primer_as "AMP2_LEFT" "AMP2_LEFT-1";
         primer_as "AMP2_LEFT" "AMP2_LEFT-2";
         primer "AMP2_RIGHT"]] /\
  (forall out, dedup_primers (ingest rows_dup_first) = Ok out ->
     exists df, In df out /\ ~ NoDup (names df)).
Proof.
  split; [reflexivity|]. split; [reflexivity|].
  intros out H. vm_compute in H. inversion H; subst out; clear H.
  eexists; split; [left; reflexivity|].
  intros Hnd. inversion Hnd as [|x l Hnotin _]; subst.
  apply Hnotin. left. reflexivity.
Qed.

(** *** [partition_by] on a boolean key *)

Section PartitionByBool.
Context {R : Type}.
Variable key : R -> bool.

Let add := fun parts r => add_row Bool.eqb key r parts.
Let sel (b : bool) := filter (fun r => Bool.eqb (key r) b).

Lemma fold_add_row_two (l : list R) :
  forall b rows others,
    fold_left add l [(b, rows); (negb b, others)] =
    [(b, rows ++ sel b l); (negb b, others ++ sel (negb b) l)].
Proof.
  induction l as [|a l IH]; intros b rows others; simpl.
  - now rewrite !app_nil_r.
  - destruct (key a) eqn:Ka, b; simpl;
      rewrite IH, <- ?app_assoc; reflexivity.
Qed.

Lemma fold_add_row_one (l : list R) :
  forall b rows,
    fold_left add l [(b, rows)] =
    match sel (negb b) l with
    | [] => [(b, rows ++ sel b l)]
    | _ :: _ => [(b, rows ++ sel b l); (negb b, sel (negb b) l)]
    end.
Proof.
  induction l as [|a l IH]; intros b rows; simpl.
  - now rewrite app_nil_r.
  - destruct (key a) eqn:Ka, b; simpl.
    + rewrite IH, <- app_assoc. reflexivity.
    + exact (fold_add_row_two l false rows [a]).
    + exact (fold_add_row_two l true rows [a]).
    + rewrite IH, <- app_assoc. reflexivity.
Qed.

Lemma partition_by_bool (a : R) (l : list R) :
  partition_by Bool.eqb key (a :: l) =
  match sel (negb (key a)) l with
  | [] => [a :: sel (key a) l]
  | _ :: _ => [a :: sel (key a) l; sel (negb (key a)) l]
  end.
Proof.
  unfold partition_by; simpl.
  change (fold_left (fun parts r => add_row Bool.eqb key r parts) l
            [(key a, [a])])
    with (fold_left add l [(key a, [a])]).
  rewrite fold_add_row_one.
  destruct (sel (negb (key a)) l); reflexivity.
Qed.
End PartitionByBool.

(** *** The frame the deduplicator builds for a group *)

Lemma combine_map_map {A B C} (f : A -> B) (g : A -> C) (l : list A) :
  combine (map f l) (map g l) = map (fun x => (f x, g x)) l.
Proof. induction l; simpl; congruence. Qed.

Lemma with_duped_map (df : DFrame) :
  with_duped df =
  map (fun r => (fst r, 1 <? count_name (NAME (fst r)) (dnames df))) df.
Proof.
  unfold with_duped, is_duplicated, dnames.
  rewrite map_map. apply combine_map_map.
Qed.

Lemma map_snd_with_duped (df : DFrame) :
  map snd (with_duped df) = is_duplicated (dnames df).
Proof.
  rewrite with_duped_map. unfold is_duplicated, dnames.
  now rewrite !map_map.
Qed.

Lemma nth_error_with_row_count {A} (l : list A) :
  forall offset j,
    nth_error (with_row_count offset l) j =
    option_map (pair (offset + j)) (nth_error l j).
Proof.
  induction l as [|a l IH]; intros offset [|j]; simpl; auto.
  - now rewrite Nat.add_0_r.
  - rewrite IH. now rewrite Nat.add_succ_r.
Qed.

Lemma any_true_filter_snd {A} (rows : list (A * bool)) :
  any_true (map snd (filter (fun r => negb (snd r)) rows)) = false.
Proof.
  apply any_true_false_iff. intros b Hb.
  apply in_map_iff in Hb. destruct Hb as [[x c] [<- Hin]].
  apply filter_In in Hin. simpl in *. destruct Hin as [_ Hc].
  now destruct c.
Qed.

Lemma sel_true {A} (rows : list (A * bool)) :
  filter (fun r => Bool.eqb (snd r) true) rows = filter (fun r => snd r) rows.
Proof. apply filter_ext. intros [x []]; reflexivity. Qed.

Lemma sel_false {A} (rows : list (A * bool)) :
  filter (fun r => Bool.eqb (snd r) false) rows =
  filter (fun r => negb (snd r)) rows.
Proof. apply filter_ext. intros [x []]; reflexivity. Qed.

Lemma rename_loop_single (i j : nat) (D : DFrame) :
  any_true (map snd D) = true ->
  rename_loop i j [D] = (j, [renamed D]).
Proof. intros T. unfold rename_loop. now rewrite T. Qed.

Lemma rename_loop_dup_first (i j : nat) (D U : DFrame) :
  any_true (map snd D) = true ->
  any_true (map snd U) = false ->
  rename_loop i j [D; U] = (S j, [renamed D; U]).
Proof. intros T F. unfold rename_loop. now rewrite T, F. Qed.

Lemma rename_loop_dup_second (i j : nat) (D U : DFrame) :
  any_true (map snd D) = true ->
  any_true (map snd U) = false ->
  rename_loop i j [U; D] = (S j, [U; renamed D]).
Proof. intros T F. unfold rename_loop. now rewrite T, F. Qed.

Lemma dedup_body_frame (k : nat) (df : DFrame) :
  has_duplicates df = true ->
  exists i,
    dedup_body k df =
      (i, Ok (if first_row_duplicated df
              then renamed (duplicated_subset df) ++ unique_subset df
              else unique_subset df ++ renamed (duplicated_subset df))).
Proof.
  intros Hdup. unfold has_duplicates in Hdup.
  rewrite <- map_snd_with_duped in Hdup.
  unfold dedup_body, first_row_duplicated, duplicated_subset, unique_subset.
  destruct (with_duped df) as [|[a d] rows]; [discriminate|].
  rewrite partition_by_bool. simpl snd.
  pose proof (any_true_filter_snd ((a, d) :: rows)) as F.
  destruct d; simpl negb; rewrite sel_true, sel_false; simpl filter in *.
  - (* the first row has a repeated name *)
    destruct (filter (fun r => negb (snd r)) rows) as [|u us] eqn:EU.
    + exists 0. rewrite rename_loop_single by reflexivity.
      unfold pl_concat. simpl. now rewrite !app_nil_r.
    + exists 1. rewrite rename_loop_dup_first by (reflexivity || exact F).
      unfold pl_concat. simpl. now rewrite app_nil_r.
  - (* the first row has a unique name *)
    destruct (filter (fun r => snd r) rows) as [|x xs] eqn:ED.
    + exfalso.
      assert (G : any_true (map snd rows) = false).
      { apply any_true_false_iff. intros b Hb.
        apply in_map_iff in Hb. destruct Hb as [[y c] [<- Hin]].
        destruct c; auto.
        assert (H : In (y, true) (filter (fun r => snd r) rows))
          by (apply filter_In; auto).
        rewrite ED in H. destruct H. }
      unfold any_true in *. simpl in Hdup. congruence.
    + exists 1.
      assert (T : any_true (map snd (x :: xs)) = true).
      { assert (H : In x (filter (fun r => snd r) rows))
          by (rewrite ED; now left).
        apply filter_In in H. destruct H as [_ H].
        unfold any_true. simpl. now rewrite H. }
      rewrite rename_loop_dup_second by assumption.
      unfold pl_concat. simpl. now rewrite app_nil_r.
Qed.

Lemma in_with_duped (df : DFrame) (r : PrimerRecord) (d : bool) :
  In (r, d) (with_duped df) <->
  (exists d0, In (r, d0) df) /\ d = (1 <? count_name (NAME r) (dnames df)).
Proof.
  rewrite with_duped_map, in_map_iff. split.
  - intros [[r0 d0] [E Hin]]. simpl in E. inversion E; subst.
    split; [now exists d0|reflexivity].
  - intros [[d0 Hin] ->]. now exists (r, d0).
Qed.

(** C3 (amended). For a frame with a repeated name, the frame the
    deduplicator builds holds the rows with a repeated name, renamed, and
    the rows with a unique name, untouched, the part of the first row
    first.  A renamed row gets ["{name}-{rank}"] where the rank is its
    1-based position in the whole duplicated subset of the frame. *)
Theorem dedup_ranks_by_position_in_duplicated_subset (k : nat) (df : DFrame) :
  has_duplicates df = true ->
  (exists i,
      dedup_body k df =
        (i, Ok (if first_row_duplicated df
                then renamed (duplicated_subset df) ++ unique_subset df
                else unique_subset df ++ renamed (duplicated_subset df)))) /\
  (forall j r d,
      nth_error (duplicated_subset df) j = Some (r, d) ->
      nth_error (renamed (duplicated_subset df)) j =
        Some (set_NAME (NAME r ++ lit "-" ++ dec (j + 1)) r, d)) /\
  (forall r d,
      In (r, d) (duplicated_subset df) <->
      (exists d0, In (r, d0) df) /\
      1 < count_name (NAME r) (dnames df) /\ d = true) /\
  (forall r d,
      In (r, d) (unique_subset df) <->
      (exists d0, In (r, d0) df) /\
      count_name (NAME r) (dnames df) <= 1 /\ d = false).
Proof.
  intros Hdup. split; [now apply dedup_body_frame|]. split; [|split].
  - intros j r d Hj. unfold renamed.
    rewrite nth_error_map, nth_error_with_row_count, Hj. simpl.
    now rewrite Nat.add_comm.
  - intros r d. unfold duplicated_subset.
    rewrite filter_In, in_with_duped. simpl. split.
    + intros [[Hin ->] Hlt]. rewrite Hlt. apply Nat.ltb_lt in Hlt. auto.
    + intros [Hin [Hlt ->]]. apply Nat.ltb_lt in Hlt. rewrite Hlt. auto.
  - intros r d. unfold unique_subset.
    rewrite filter_In, in_with_duped. simpl. split.
    + intros [[Hin ->] Hge]. apply negb_true_iff in Hge.
      rewrite Hge. apply Nat.ltb_ge in Hge. auto.
    + intros [Hin [Hle ->]]. apply Nat.ltb_ge in Hle. rewrite Hle. auto.
Qed.

Lemma dedup_ranks_by_position_in_duplicated_subset_witness :
  has_duplicates amp4_repeated = true /\
  nth_error (renamed (duplicated_subset amp4_repeated)) 2 =
    Some (primer_as "AMP4_RIGHT" "AMP4_RIGHT-3", true).
Proof.
  split; [reflexivity|].
  apply (proj1 (proj2 (@dedup_ranks_by_position_in_duplicated_subset
                         0 amp4_repeated eq_refl))
           2 (primer "AMP4_RIGHT")).
  reflexivity.
Defined.

(** C3 (as stated) fails: of two names that each occur twice, the rows of
    the second name get the ranks 3 and 4, their positions in the
    duplicated subset, where a rank counted per name would be 1 and 2. *)
Lemma dedup_rank_is_not_per_name :
  ingest rows_two_names = [amp4_repeated] /\
  (exists out,
      dedup_primers [amp4_repeated] = Ok [out] /\
      names out = [lit "AMP4_LEFT-1"; lit "AMP4_LEFT-2";
                   lit "AMP4_RIGHT-3"; lit "AMP4_RIGHT-4"] /\
      dnames (spec_renamed (duplicated_subset amp4_repeated)) =
        [lit "AMP4_LEFT-1"; lit "AMP4_LEFT-2";
         lit "AMP4_RIGHT-1"; lit "AMP4_RIGHT-2"] /\
      names out <> dnames (spec_renamed (duplicated_subset amp4_repeated))).
Proof.
  split; [reflexivity|].
  eexists. split; [reflexivity|]. split; [reflexivity|].
  split; [reflexivity|].
  intros H. vm_compute in H. discriminate H.
Qed.

(** ** Resolving one group *)

Lemma has_repeated_name_false_iff (df : Frame) :
  has_repeated_name df = false <-> NoDup (names df).
Proof.
  unfold has_repeated_name, is_duplicated.
  rewrite any_true_false_iff, (NoDup_count_occ (list_eq_dec ascii_dec)).
  split.
  - intros H n.
    destruct (in_dec (list_eq_dec ascii_dec) n (names df)) as [Hin|Hout].
    + specialize (H (1 <? count_name n (names df))).
      apply Nat.ltb_ge. apply H. apply in_map_iff. now exists n.
    + apply (count_occ_not_In (list_eq_dec ascii_dec)) in Hout.
      rewrite Hout. lia.
  - intros H b Hb. apply in_map_iff in Hb. destruct Hb as [n [<- _]].
    apply Nat.ltb_ge. apply H.
Qed.

Lemma length_enumerate {A} (l : list A) :
  forall start, List.length (enumerate start l) = List.length l.
Proof. induction l; intros; simpl; auto. Qed.

Lemma resolve_primer_names_lengths (to_combine combine_to : list str) :
  List.length (fst (resolve_primer_names to_combine combine_to)) =
    2 * (List.length to_combine * List.length combine_to) /\
  List.length (snd (resolve_primer_names to_combine combine_to)) =
    2 * (List.length to_combine * List.length combine_to).
Proof.
  unfold resolve_primer_names; simpl.
  rewrite !length_app, !length_map, length_enumerate, length_prod. lia.
Qed.





(** What the join returns when it does not raise. *)
Lemma join_left_ok (keys : list str) (df joined : Frame) :
  join_left keys df = Ok joined ->
  keys <> [] /\ has_repeated_name df = false /\
  joined = map (fun k =>
                  match find (fun r => Str.eqb (NAME r) k) df with
                  | Some r => r
                  | None => null_row k
                  end) keys.
Proof.
  unfold join_left. destruct keys as [|key keys]; [discriminate|].
  destruct (has_repeated_name df); [discriminate|].
  intros H. inversion H. repeat split. discriminate.
Qed.

Lemma eqb_eq (a b : str) : Str.eqb a b = true <-> a = b.
Proof.
  unfold Str.eqb. destruct (list_eq_dec ascii_dec a b); split; congruence.
Qed.

Lemma find_by_name (df : Frame) (k : str) :
  In k (names df) ->
  exists src, find (fun r => Str.eqb (NAME r) k) df = Some src /\
              In src df /\ NAME src = k.
Proof.
  intros Hin. apply in_map_iff in Hin. destruct Hin as [x [Hx Hin]].
  destruct (find (fun r => Str.eqb (NAME r) k) df) as [src|] eqn:E.
  - apply find_some in E. destruct E as [Hs He].
    exists src. rewrite eqb_eq in He. auto.
  - apply find_none with (x := x) in E; auto.
    apply (proj2 (eqb_eq (NAME x) k)) in Hx. congruence.
Qed.

Lemma in_with_names (rows : Frame) (new_names : list str) (o : PrimerRecord) :
  In o (with_names rows new_names) ->
  exists row, In row rows /\ o = set_NAME (NAME o) row.
Proof.
  unfold with_names. intros H. apply in_map_iff in H.
  destruct H as [[row n] [<- Hin]]. apply in_combine_l in Hin.
  exists row. split; auto.
Qed.

(** Every row of a resolved group is a row of the group it was resolved
    from, found under one of the names that were paired, with a new name. *)
Lemma resplice_new_df_rows (i : nat) (df : Frame) (a b : list str) (out : Frame) :
  (forall k, In k a \/ In k b -> In k (names df)) ->
  resplice_new_df i df a b = Append out ->
  forall o, In o out ->
    exists src, In src df /\ (In (NAME src) a \/ In (NAME src) b) /\
                o = set_NAME (NAME o) src.
Proof.
  intros Hsub H o Ho. unfold resplice_new_df, resolve_primer_names in H.
  match type of H with (if ?c then _ else _) = _ => destruct c end;
    [discriminate|].
  destruct (join_left _ df) as [joined|] eqn:Ej in H; [|discriminate].
  apply join_left_ok in Ej. destruct Ej as [_ [_ ->]].
  inversion H; subst out; clear H.
  apply in_with_names in Ho. destruct Ho as [row [Hrow ->]].
  apply in_map_iff in Hrow. destruct Hrow as [k [Hk Hin]].
  assert (Hab : In k a \/ In k b).
  { apply in_app_or in Hin. destruct Hin as [Hin|Hin];
      apply in_map_iff in Hin; destruct Hin as [[x y] [<- Hp]];
      apply in_prod_iff in Hp; simpl; tauto. }
  destruct (find_by_name df k (Hsub k Hab)) as [src [E [Hs Hn]]].
  rewrite E in Hk. subst row. exists src. simpl. rewrite Hn. auto.
Qed.

Lemma resplice_group_rows (i : nat) (df out : Frame) :
  odd_count df = true ->
  resplice_group i df = Append out ->
  forall o, In o out ->
    exists src, In src df /\
      (str_in LEFT_TAG (NAME src) = true \/ str_in RIGHT_TAG (NAME src) = true) /\
      o = set_NAME (NAME o) src.
Proof.
  intros Hodd H o Ho. unfold resplice_group in H. rewrite Hodd in H.
  assert (Hsub : forall a b k,
             (a = fwd_primers df /\ b = rev_primers df) \/
             (a = rev_primers df /\ b = fwd_primers df) ->
             In k a \/ In k b ->
             In k (names df) /\
             (str_in LEFT_TAG k = true \/ str_in RIGHT_TAG k = true)).
  { unfold fwd_primers, rev_primers.
    intros a b k [[-> ->]|[-> ->]] [Hk|Hk]; apply filter_In in Hk; tauto. }
  destruct (_ <? _) in H;
    [|destruct (_ <? _) in H; [|discriminate]];
    (eapply resplice_new_df_rows in H;
     [destruct H as [src [Hs [Hab ->]]]; exists src; split; [exact Hs|];
      split; [|reflexivity];
      eapply Hsub; [|exact Hab]; auto
     |intros k Hk; eapply Hsub; [|exact Hk]; auto
     |exact Ho]).
Qed.

Lemma succ_mod_2 (n : nat) : (S n mod 2 =? 0) = negb (n mod 2 =? 0).
Proof.
  replace (S n) with (n + 1) by lia.
  rewrite Nat.Div0.add_mod.
  pose proof (Nat.mod_upper_bound n 2).
  destruct (n mod 2) as [|[|m]]; try reflexivity. lia.
Qed.

(** C10. In an odd group, a row whose name contains neither [_LEFT] nor
    [_RIGHT] is in neither orientation list and no resolved row comes from
    it, yet it is counted by the parity test, which its presence flips: a
    group of four that would pass through is resolved once such a row
    joins it, and the row is not in the result. *)
Theorem unoriented_row_is_counted_then_dropped
    (i : nat) (pre post : Frame) (r : PrimerRecord) :
  str_in LEFT_TAG (NAME r) = false ->
  str_in RIGHT_TAG (NAME r) = false ->
  ~ In (NAME r) (fwd_primers (pre ++ r :: post)) /\
  ~ In (NAME r) (rev_primers (pre ++ r :: post)) /\
  odd_count (pre ++ r :: post) = negb (odd_count (pre ++ post)) /\
  (forall out,
      odd_count (pre ++ r :: post) = true ->
      resplice_group i (pre ++ r :: post) = Append out ->
      forall o, In o out ->
        exists src, In src (pre ++ post) /\ NAME src <> NAME r /\
                    o = set_NAME (NAME o) src) /\
  (exists out,
      resplice_group i amp6 = Append amp6 /\
      resplice_group i (amp6 ++ [amp6_alt]) = Append out /\
      List.length out = 6 /\
      forall o, In o out -> ORIG_NAME o <> ORIG_NAME amp6_alt).
Proof.
  intros HL HR.
  split; [|split; [|split; [|split]]].
  - unfold fwd_primers. rewrite filter_In. intros [_ H]. congruence.
  - unfold rev_primers. rewrite filter_In. intros [_ H]. congruence.
  - unfold odd_count. rewrite !length_app.
    change (List.length (r :: post)) with (S (List.length post)).
    rewrite Nat.add_succ_r, succ_mod_2. reflexivity.
  - intros out Hodd H o Ho.
    destruct (resplice_group_rows i _ Hodd H o Ho) as [src [Hs [Htag ->]]].
    assert (Hne : NAME src <> NAME r).
    { intros E. rewrite E in Htag. destruct Htag; congruence. }
    exists src. split; [|split; [exact Hne|reflexivity]].
    apply in_app_or in Hs. apply in_or_app.
    destruct Hs as [Hs|[Hs|Hs]]; auto. subst src. congruence.
  - eexists. split; [reflexivity|]. split; [reflexivity|].
    split; [reflexivity|].
    intros o Ho. simpl in Ho.
    repeat (destruct Ho as [<-|Ho]; [vm_compute; discriminate|]).
    destruct Ho.
Qed.

Lemma unoriented_row_is_counted_then_dropped_witness :
  ~ In (NAME amp6_alt) (fwd_primers (amp6 ++ amp6_alt :: [])) /\
  odd_count (amp6 ++ amp6_alt :: []) = negb (odd_count (amp6 ++ [])).
Proof.
  destruct (@unoriented_row_is_counted_then_dropped 0 amp6 [] amp6_alt
              eq_refl eq_refl) as [H1 [_ [H3 _]]].
  split; [exact H1|exact H3].
Defined.

(** ** What the stages preserve *)

Section PartitionByMembers.
Context {R K : Type}.
Variable keqb : K -> K -> bool.
Variable key : R -> K.

Lemma in_add_row (r x : R) (parts : list (K * list R)) :
  In x (concat (map snd (add_row keqb key r parts))) ->
  x = r \/ In x (concat (map snd parts)).
Proof.
  induction parts as [|[k rows] parts IH]; simpl.
  - intros [->|[]]; auto.
  - destruct (keqb k (key r)); simpl; rewrite !in_app_iff.
    + intros [[H|H]|H]; auto. destruct H as [->|[]]; auto.
    + intros [H|H]; auto. apply IH in H. tauto.
Qed.

Lemma in_fold_add_row (l : list R) :
  forall parts x,
    In x (concat (map snd (fold_left (fun p r => add_row keqb key r p) l parts))) ->
    In x l \/ In x (concat (map snd parts)).
Proof.
  induction l as [|a l IH]; intros parts x H; simpl in *; auto.
  apply IH in H. destruct H as [H|H]; auto.
  apply in_add_row in H. destruct H as [->|H]; auto.
Qed.

Lemma in_partition_by (df part : list R) (x : R) :
  In part (partition_by keqb key df) -> In x part -> In x df.
Proof.
  intros Hp Hx.
  assert (H : In x (concat (partition_by keqb key df)))
    by (apply in_concat; eauto).
  unfold partition_by in H. apply in_fold_add_row in H.
  destruct H as [H|[]]. exact H.
Qed.
End PartitionByMembers.

Section Preservation.
(** A property of rows that does not depend on [NAME]. *)
Variable P : PrimerRecord -> Prop.
Hypothesis P_set_NAME : forall n r, P r -> P (set_NAME n r).

Lemma in_with_row_count {A} (l : list A) :
  forall offset p, In p (with_row_count offset l) -> In (snd p) l.
Proof.
  induction l as [|a l IH]; intros offset p; simpl; [tauto|].
  intros [<-|H]; [now left|right; eapply IH; eauto].
Qed.

Lemma renamed_all_rows (df : DFrame) :
  (forall rd, In rd df -> P (fst rd)) ->
  forall rd, In rd (renamed df) -> P (fst rd).
Proof.
  intros H rd Hin. unfold renamed in Hin. apply in_map_iff in Hin.
  destruct Hin as [[k [r d]] [<- Hin]].
  apply in_with_row_count in Hin. simpl in *.
  apply P_set_NAME. exact (H (r, d) Hin).
Qed.

Lemma rename_loop_all_rows (new_dfs : list DFrame) :
  forall i j, all_rows P new_dfs -> all_rows P (snd (rename_loop i j new_dfs)).
Proof.
  induction new_dfs as [|f fs IH]; intros i j H; simpl; [exact H|].
  specialize (IH j (S j)).
  destruct (rename_loop j (S j) fs) as [i' fs']; simpl in *.
  intros df rd [<-|Hdf] Hrd.
  - destruct (any_true (map snd f)).
    + eapply renamed_all_rows; [|exact Hrd].
      intros rd' Hrd'. eapply H; [left; reflexivity|exact Hrd'].
    + eapply H; [left; reflexivity|exact Hrd].
  - eapply IH; [|exact Hdf|exact Hrd].
    intros df' rd' Hdf'. apply H. now right.
Qed.

Lemma dedup_body_all_rows (k i : nat) (df df' : DFrame) :
  (forall rd, In rd df -> P (fst rd)) ->
  dedup_body k df = (i, Ok df') ->
  forall rd, In rd df' -> P (fst rd).
Proof.
  intros H E rd Hrd. unfold dedup_body in E.
  pose proof (@rename_loop_all_rows
                (partition_by Bool.eqb snd (with_duped df)) k 0) as Hall.
  destruct (rename_loop k 0 (partition_by Bool.eqb snd (with_duped df)))
    as [i0 new_dfs']; simpl in Hall.
  inversion E as [[Ei Ec]]. unfold pl_concat in Ec.
  destruct new_dfs' as [|f fs]; [discriminate|]. inversion Ec; subst df'.
  change (In rd (concat (f :: fs))) in Hrd.
  apply in_concat in Hrd. destruct Hrd as [g [Hg Hrd]].
  eapply Hall; [|exact Hg|exact Hrd].
  intros part [r d] Hpart Hin. simpl.
  apply (in_partition_by _ _ _ _ _ Hpart) in Hin.
  apply in_with_duped in Hin. destruct Hin as [[d0 Hin] _].
  exact (H (r, d0) Hin).
Qed.

Lemma in_list_set {A} (l : list A) :
  forall i x l' y, list_set l i x = Some l' -> In y l' -> y = x \/ In y l.
Proof.
  induction l as [|a l IH]; intros [|i] x l' y E Hy; simpl in E;
    try discriminate.
  - inversion E; subst. destruct Hy; simpl; auto.
  - destruct (list_set l i x) as [t|] eqn:Et; [|discriminate].
    inversion E; subst. destruct Hy as [->|Hy]; simpl; auto.
    eapply IH in Hy; [|exact Et]. tauto.
Qed.

Lemma dedup_loop_all_rows (todo : nat) :
  forall k bed, all_rows P bed -> all_rows P (fst (dedup_loop todo k bed)).
Proof.
  induction todo as [|todo IH]; intros k bed H; simpl; [exact H|].
  destruct (nth_error bed k) as [df|] eqn:E; [|exact H].
  destruct (has_duplicates df); [|now apply IH].
  destruct (dedup_body k df) as [i [df'|e]] eqn:Eb; [|exact H].
  destruct (list_set bed i df') as [bed'|] eqn:El; [|exact H].
  apply IH. intros g rd Hg Hrd.
  destruct (in_list_set _ _ _ _ El Hg) as [->|Hg'].
  - eapply dedup_body_all_rows; [|exact Eb|exact Hrd].
    intros rd' Hrd'. eapply H; [eapply nth_error_In; exact E|exact Hrd'].
  - eapply H; eauto.
Qed.

Lemma dedup_primers_all_rows (bed : list DFrame) (res : list Frame) :
  all_rows P bed -> dedup_primers bed = Ok res -> all_frame_rows P res.
Proof.
  intros H E. unfold dedup_primers, dedup_primers_st in E.
  pose proof (dedup_loop_all_rows (List.length bed) 0 H) as Hall.
  destruct (dedup_loop (List.length bed) 0 bed) as [bed' [e|]];
    simpl in *; [discriminate|].
  unfold repartition, pl_concat in E.
  destruct bed' as [|f fs]; simpl in E; [discriminate|].
  inversion E; subst res; clear E.
  intros df r Hdf Hr.
  apply (in_partition_by _ _ _ _ _ Hdf) in Hr.
  apply in_map_iff in Hr. destruct Hr as [rd [<- Hrd]].
  change (In rd (concat (f :: fs))) in Hrd.
  apply in_concat in Hrd. destruct Hrd as [g [Hg Hrd]].
  eapply Hall; eauto.
Qed.
End Preservation.

Section ResolverPreservation.
Variable P : PrimerRecord -> Prop.
Hypothesis P_set_NAME : forall n r, P r -> P (set_NAME n r).

Lemma resplice_group_all_rows (i : nat) (df out : Frame) :
  (forall r, In r df -> P r) ->
  resplice_group i df = Append out ->
  forall r, In r out -> P r.
Proof.
  intros H E r Hr. destruct (odd_count df) eqn:Hodd.
  - destruct (resplice_group_rows i df Hodd E r Hr) as [src [Hs [_ ->]]].
    apply P_set_NAME. auto.
  - unfold resplice_group in E. rewrite Hodd in E.
    inversion E; subst out. auto.
Qed.

Lemma resplice_loop_all_rows (frames : list Frame) :
  forall i acc out,
    all_frame_rows P frames -> all_frame_rows P acc ->
    resplice_loop i frames acc = Ok out -> all_frame_rows P out.
Proof.
  induction frames as [|g frames IH]; intros i acc out Hf Ha E; simpl in E.
  - inversion E; subst. exact Ha.
  - destruct (resplice_group i g) as [new_df| |e] eqn:Eg; try discriminate.
    + eapply IH; [| |exact E].
      * intros df r Hdf. apply Hf. now right.
      * intros df r Hdf Hr. apply in_app_or in Hdf.
        destruct Hdf as [Hdf|[<-|[]]]; [now apply (Ha df)|].
        eapply resplice_group_all_rows; [|exact Eg|exact Hr].
        intros r' Hr'. eapply Hf; [left; reflexivity|exact Hr'].
    + inversion E; subst. exact Ha.
Qed.

Lemma finalize_all_rows (mutated_frames : list Frame) (out : Frame) :
  all_frame_rows P mutated_frames ->
  finalize_primer_pairings mutated_frames = Ok out ->
  forall r, In r out -> P r.
Proof.
  intros H E r Hr. unfold finalize_primer_pairings, pl_concat in E.
  destruct (final_frames mutated_frames) as [|f fs] eqn:Ef; [discriminate|].
  inversion E; subst out; clear E.
  change (In r (concat (f :: fs))) in Hr. rewrite <- Ef in Hr.
  apply in_concat in Hr. destruct Hr as [df [Hdf Hr]].
  unfold final_frames in Hdf.
  rewrite finalize_loop_filter with (keep := fun df =>
    (0 <? List.length (fwd_keepers df)) && (0 <? List.length (rev_keepers df)))
    in Hdf by reflexivity.
  simpl in Hdf. apply filter_In in Hdf. destruct Hdf as [Hdf _].
  eapply H; eauto.
Qed.
End ResolverPreservation.

Lemma renames_refl (r : PrimerRecord) : renames r r.
Proof. destruct r; reflexivity. Qed.

Lemma ingested_from_set_NAME (rows : list BedRow) (n : str) (r : PrimerRecord) :
  ingested_from rows r -> ingested_from rows (set_NAME n r).
Proof.
  intros [x [Hx Hr]]. exists x. split; [exact Hx|].
  unfold renames in *. rewrite Hr. reflexivity.
Qed.

Lemma ingest_all_rows (rows : list BedRow) :
  all_rows (ingested_from rows) (ingest rows).
Proof.
  intros df [r d] Hdf Hrd. simpl. unfold ingest in Hdf.
  apply (in_partition_by _ _ _ _ _ Hdf) in Hrd.
  apply in_combine_l in Hrd. apply in_map_iff in Hrd.
  destruct Hrd as [x [<- Hx]]. exists x. split; [exact Hx|apply renames_refl].
Qed.

(** C8. Whenever [main] produces a final frame, every row of it, like
    every row the deduplicator and the resolver hand on, is one of the
    ingested rows up to [NAME]; its [ORIG_NAME] is therefore the name that
    row had at ingestion. *)
Theorem original_name_is_preserved (rows : list BedRow) (out : Frame) :
  final_df rows = Ok out ->
  exists dedup_partitioned mutated_frames,
    dedup_primers (ingest rows) = Ok dedup_partitioned /\
    resplice_primers dedup_partitioned = Ok mutated_frames /\
    finalize_primer_pairings mutated_frames = Ok out /\
    all_rows (fun r => ORIG_NAME r = Some (NAME r)) (ingest rows) /\
    all_frame_rows (ingested_from rows) dedup_partitioned /\
    all_frame_rows (ingested_from rows) mutated_frames /\
    (forall r, In r out ->
       exists x, In x rows /\ renames r (ingest_row x) /\
                 ORIG_NAME r = Some (bed_name x)).
Proof.
  intros E. unfold final_df in E.
  destruct (dedup_primers (ingest rows)) as [dp|e] eqn:Ed; [|discriminate].
  simpl in E.
  destruct (resplice_primers dp) as [mf|e] eqn:Er; [|discriminate].
  simpl in E.
  exists dp, mf. split; [reflexivity|]. split; [exact Er|]. split; [exact E|].
  pose proof (@ingested_from_set_NAME rows) as Hclosed.
  assert (Hd : all_frame_rows (ingested_from rows) dp).
  { eapply dedup_primers_all_rows; [exact Hclosed|apply ingest_all_rows|exact Ed]. }
  assert (Hm : all_frame_rows (ingested_from rows) mf).
  { unfold resplice_primers in Er.
    eapply resplice_loop_all_rows; [exact Hclosed|exact Hd| |exact Er].
    intros df r []. }
  split; [|split; [exact Hd|split; [exact Hm|]]].
  - intros df [r d] Hdf Hrd. simpl.
    destruct (ingest_all_rows rows df (r, d) Hdf Hrd) as [x [_ Hr]].
    simpl in Hr. unfold ingest in Hdf.
    apply (in_partition_by _ _ _ _ _ Hdf) in Hrd.
    apply in_combine_l in Hrd. apply in_map_iff in Hrd.
    destruct Hrd as [y [<- _]]. reflexivity.
  - intros r Hr.
    destruct (finalize_all_rows Hm E r Hr) as [x [Hx Hren]].
    exists x. split; [exact Hx|]. split; [exact Hren|].
    rewrite Hren. reflexivity.
Qed.

Lemma original_name_is_preserved_witness :
  exists dedup_partitioned mutated_frames,
    dedup_primers (ingest rows_amp1) = Ok dedup_partitioned /\
    resplice_primers dedup_partitioned = Ok mutated_frames /\
    finalize_primer_pairings mutated_frames =
      Ok [primer_as "AMP1_LEFT" "AMP1_splice1_LEFT";
          primer_as "AMP1_LEFT" "AMP1_splice2_LEFT";
          primer_as "AMP1_RIGHT" "AMP1_splice1_RIGHT";
          primer_as "AMP1_RIGHT-2" "AMP1_splice2_RIGHT-2"] /\
    all_rows (fun r => ORIG_NAME r = Some (NAME r)) (ingest rows_amp1) /\
    all_frame_rows (ingested_from rows_amp1) dedup_partitioned /\
    all_frame_rows (ingested_from rows_amp1) mutated_frames /\
    (forall r,
       In r [primer_as "AMP1_LEFT" "AMP1_splice1_LEFT";
             primer_as "AMP1_LEFT" "AMP1_splice2_LEFT";
             primer_as "AMP1_RIGHT" "AMP1_splice1_RIGHT";
             primer_as "AMP1_RIGHT-2" "AMP1_splice2_RIGHT-2"] ->
       exists x, In x rows_amp1 /\ renames r (ingest_row x) /\
                 ORIG_NAME r = Some (bed_name x)).
Proof.
  apply (@original_name_is_preserved rows_amp1). reflexivity.
Defined.

(** ** What the deduplicator does to the list it is given *)

Lemma renamed_names_grow (D : DFrame) :
  (forall rd, In rd D -> name_kept (fst rd)) ->
  forall rd, In rd (renamed D) -> name_grown (fst rd).
Proof.
  intros H rd Hin. unfold renamed in Hin. apply in_map_iff in Hin.
  destruct Hin as [[k [r d]] [<- Hin]].
  apply in_with_row_count in Hin. simpl in Hin.
  destruct (H (r, d) Hin) as [o [Ho Hlen]]. simpl in Ho, Hlen.
  exists o. split; [exact Ho|].
  cbn [rename_row fst set_NAME NAME]. rewrite !length_app.
  change (List.length (lit "-")) with 1. lia.
Qed.

Lemma name_grown_kept (r : PrimerRecord) : name_grown r -> name_kept r.
Proof. intros [o [Ho Hlen]]. exists o. split; [exact Ho|lia]. Qed.

(** The frame built for a group with a repeated name holds a renamed row. *)
Lemma dedup_body_names (k i : nat) (df df' : DFrame) :
  has_duplicates df = true ->
  dedup_body k df = (i, Ok df') ->
  (forall rd, In rd df -> name_kept (fst rd)) ->
  (forall rd, In rd df' -> name_kept (fst rd)) /\
  (exists rd, In rd df' /\ name_grown (fst rd)).
Proof.
  intros Hdup E H.
  destruct (dedup_body_frame k df Hdup) as [i0 E0].
  rewrite E0 in E. inversion E as [[Ei Ed]]. clear E E0 Ei.
  assert (Hsub : forall rd, In rd (with_duped df) -> name_kept (fst rd)).
  { intros [r d] Hin. apply in_with_duped in Hin.
    destruct Hin as [[d0 Hin] _]. exact (H (r, d0) Hin). }
  assert (HU : forall rd, In rd (unique_subset df) -> name_kept (fst rd)).
  { intros rd Hin. apply filter_In in Hin. now apply Hsub. }
  assert (HR : forall rd, In rd (renamed (duplicated_subset df)) ->
                          name_grown (fst rd)).
  { apply renamed_names_grow. intros rd Hin.
    apply filter_In in Hin. now apply Hsub. }
  assert (Hne : exists rd, In rd (renamed (duplicated_subset df))).
  { unfold has_duplicates, any_true in Hdup.
    rewrite <- map_snd_with_duped in Hdup.
    apply existsb_exists in Hdup. destruct Hdup as [c [Hc ->]].
    apply in_map_iff in Hc. destruct Hc as [rd [Hs Hin]].
    assert (Hd : In rd (duplicated_subset df)) by (apply filter_In; auto).
    destruct (duplicated_subset df) as [|x D]; [destruct Hd|].
    eexists. left. reflexivity. }
  split.
  - intros rd Hin.
    destruct (first_row_duplicated df); apply in_app_or in Hin;
      destruct Hin as [Hin|Hin];
      solve [now apply HU | now apply name_grown_kept, HR].
  - destruct Hne as [rd Hrd]. exists rd. split; [|now apply HR].
    destruct (first_row_duplicated df); apply in_or_app; auto.
Qed.

Lemma list_set_holds {A} (l : list A) :
  forall i x l', list_set l i x = Some l' -> In x l'.
Proof.
  induction l as [|a l IH]; intros [|i] x l' E; simpl in E; try discriminate.
  - inversion E. now left.
  - destruct (list_set l i x) as [t|] eqn:Et; [|discriminate].
    inversion E. right. eapply IH; eauto.
Qed.

(** When the loop ends without an exception, either it met no frame with a
    repeated name and assigned nothing, or the list holds a renamed row. *)
Lemma dedup_loop_unchanged_or_grown (todo : nat) :
  forall k bed bed',
    all_rows name_kept bed ->
    dedup_loop todo k bed = (bed', None) ->
    (bed' = bed /\
     forall j df, k <= j < k + todo -> nth_error bed j = Some df ->
                  has_duplicates df = false) \/
    (exists df rd, In df bed' /\ In rd df /\ name_grown (fst rd)).
Proof.
  induction todo as [|todo IH]; intros k bed bed' W E; simpl in E.
  - inversion E; subst. left. split; [reflexivity|]. intros j df Hj. lia.
  - destruct (nth_error bed k) as [d|] eqn:En.
    + destruct (has_duplicates d) eqn:Hd.
      * destruct (dedup_body k d) as [i [df'|e]] eqn:Eb; [|discriminate E].
        destruct (list_set bed i df') as [bed1|] eqn:El; [|discriminate E].
        destruct (@dedup_body_names k i d df' Hd Eb) as [Hk [rd [Hrd Hg]]].
        { intros x Hx. eapply W; [eapply nth_error_In; exact En|exact Hx]. }
        assert (W1 : all_rows name_kept bed1).
        { intros g x Hg' Hx.
          destruct (in_list_set _ _ _ _ El Hg') as [->|Hin];
            [now apply Hk|eapply W; eauto]. }
        pose proof (list_set_holds _ _ _ El) as Hin.
        destruct (IH (S k) bed1 bed' W1 E) as [[-> _]|Q]; right;
          [exists df', rd; auto|exact Q].
      * destruct (IH (S k) bed bed' W E) as [[-> Hr]|Q]; [left|right; exact Q].
        split; [reflexivity|]. intros j df Hj Hn.
        destruct (Nat.eq_dec j k) as [->|Hjk].
        -- rewrite En in Hn. inversion Hn; subst. exact Hd.
        -- apply (Hr j); [lia|exact Hn].
    + inversion E; subst. left. split; [reflexivity|]. intros j df Hj Hn.
      apply nth_error_None in En.
      assert (Hnone : nth_error bed' j = None) by (apply nth_error_None; lia).
      rewrite Hnone in Hn. discriminate Hn.
Qed.

Lemma ingest_names_kept (rows : list BedRow) :
  all_rows (fun r => ORIG_NAME r = Some (NAME r)) (ingest rows).
Proof.
  intros df [r d] Hdf Hrd. simpl. unfold ingest in Hdf.
  apply (in_partition_by _ _ _ _ _ Hdf) in Hrd.
  apply in_combine_l in Hrd. apply in_map_iff in Hrd.
  destruct Hrd as [x [<- Hx]]. reflexivity.
Qed.

(** C9 (amended). The deduplicator assigns into the list it is given.  That
    list comes back unchanged whenever no frame of it has a repeated name;
    and for the list [main] builds from its input table this is the only
    case: when the deduplicator returns and that list is unchanged, no
    frame of it has a repeated name. *)
Theorem dedup_keeps_list_without_duplicates
    (partitioned_bed : list DFrame) (rows : list BedRow) :
  ((forall df, In df partitioned_bed -> has_duplicates df = false) ->
   fst (dedup_primers_st partitioned_bed) = partitioned_bed) /\
  (forall out,
      dedup_primers (ingest rows) = Ok out ->
      fst (dedup_primers_st (ingest rows)) = ingest rows ->
      forall df, In df (ingest rows) -> has_duplicates df = false).
Proof.
  split.
  - intros Hno. unfold dedup_primers_st.
    now rewrite dedup_loop_without_duplicates.
  - intros out Hret Hsame df Hdf.
    pose proof (ingest_names_kept rows) as Hfresh.
    assert (W : all_rows name_kept (ingest rows)).
    { intros g rd Hg Hrd. exists (NAME (fst rd)).
      split; [exact (Hfresh g rd Hg Hrd)|lia]. }
    unfold dedup_primers, dedup_primers_st in Hret, Hsame.
    destruct (dedup_loop (List.length (ingest rows)) 0 (ingest rows))
      as [bed' [e|]] eqn:El; simpl in Hret, Hsame; [discriminate Hret|].
    subst bed'.
    destruct (dedup_loop_unchanged_or_grown _ _ W El)
      as [[_ Hno]|[g [rd [Hg [Hrd [o [Ho Hlen]]]]]]].
    + apply In_nth_error in Hdf. destruct Hdf as [j Hj].
      apply (Hno j); [|exact Hj].
      assert (j < List.length (ingest rows))
        by (apply nth_error_Some; rewrite Hj; discriminate).
      lia.
    + rewrite (Hfresh g rd Hg Hrd) in Ho. inversion Ho; subst o. lia.
Qed.

Lemma dedup_keeps_list_without_duplicates_witness :
  fst (dedup_primers_st (ingest rows_amp1)) = ingest rows_amp1 /\
  (forall df, In df (ingest rows_amp1) -> has_duplicates df = false).
Proof.
  assert (H : forall df, In df (ingest rows_amp1) -> has_duplicates df = false).
  { eapply (proj2 (dedup_keeps_list_without_duplicates
                     (ingest rows_amp1) rows_amp1)); reflexivity. }
  split; [|exact H].
  exact (proj1 (dedup_keeps_list_without_duplicates
                  (ingest rows_amp1) rows_amp1) H).
Defined.

(** C9 (as stated) fails: with the repeated name in the second amplicon,
    the second entry of the caller's list is replaced by the renamed
    frame. *)
Lemma dedup_overwrites_callers_list :
  fst (dedup_primers_st (ingest rows_dup_second)) <> ingest rows_dup_second /\
  option_map dnames (nth_error (ingest rows_dup_second) 1) =
    Some [lit "AMP2_LEFT"; lit "AMP2_LEFT"; lit "AMP2_RIGHT"] /\
  option_map dnames (nth_error (fst (dedup_primers_st (ingest rows_dup_second))) 1) =
    Some [lit "AMP2_LEFT-1"; lit "AMP2_LEFT-2"; lit "AMP2_RIGHT"].
Proof.
  split; [|split; reflexivity].
  intros H.
  apply (f_equal (fun l => option_map dnames (nth_error l 1))) in H.
  vm_compute in H. discriminate H.
Qed.

(** ** Strings: occurrences, tokens, digits *)

Lemma startswith_spec (p s : str) :
  startswith p s = true <-> exists y, s = p ++ y.
Proof.
  revert s; induction p as [|c p IH]; intros s; simpl.
  - split; eauto.
  - destruct s as [|d s].
    + split; [discriminate|intros [y H]; discriminate].
    + rewrite andb_true_iff, Ascii.eqb_eq, IH. split.
      * intros [-> [y ->]]. now exists y.
      * intros [y H]. inversion H; subst. eauto.
Qed.

Lemma str_in_spec (p s : str) :
  str_in p s = true <-> exists x y, s = x ++ p ++ y.
Proof.
  induction s as [|c s IH]; simpl.
  - rewrite orb_false_r, startswith_spec. split.
    + intros [y H]. now exists [], y.
    + intros [x [y H]]. destruct x; simpl in H; [eauto|discriminate].
  - rewrite orb_true_iff, IH, startswith_spec. split.
    + intros [[y H]|[x [y H]]].
      * now exists [], y.
      * exists (c :: x), y. simpl. now rewrite H.
    + intros [x [y H]]. destruct x as [|d x]; simpl in H.
      * left; eauto.
      * right. inversion H. eauto.
Qed.

Lemma str_in_false (p s : str) :
  str_in p s = false <-> ~ exists x y, s = x ++ p ++ y.
Proof.
  rewrite <- str_in_spec. destruct (str_in p s); split; congruence.
Qed.

(** An occurrence of [p] in [a ++ c :: b] lies in [a], in [b], or covers
    the character [c]. *)
Lemma occurrence_app_cons (p a b : str) (c : ascii) :
  (exists x y, a ++ c :: b = x ++ p ++ y) ->
  (exists x y, a = x ++ p ++ y) \/
  (exists x y, b = x ++ p ++ y) \/
  (exists l m, p = l ++ c :: m /\
               (exists x, a = x ++ l) /\ (exists y, b = m ++ y)).
Proof.
  intros [x [y H]]. apply app_eq_app in H.
  destruct H as [l [[Ha Hpy]|[Hx Hcb]]].
  - symmetry in Hpy. apply app_eq_app in Hpy.
    destruct Hpy as [m [[Hl Hy]|[Hp Hcb]]].
    + left. exists x, m. now rewrite Ha, Hl.
    + destruct m as [|d m]; simpl in Hcb.
      * left. exists x, []. rewrite app_nil_r in *. now subst.
      * inversion Hcb; subst d. right; right.
        exists l, m. eauto.
  - destruct l as [|d l]; simpl in Hcb.
    + destruct p as [|d p]; simpl in Hcb.
      * left. exists a, []. now rewrite app_nil_r.
      * inversion Hcb; subst d. right; right.
        exists [], p. split; [reflexivity|].
        split; [exists a; now rewrite app_nil_r|eauto].
    + inversion Hcb. right; left. eauto.
Qed.

Lemma occurrence_has_chars (p s : str) (c : ascii) :
  (exists x y, s = x ++ p ++ y) -> In c p -> In c s.
Proof.
  intros [x [y ->]] H. apply in_or_app. right. apply in_or_app. now left.
Qed.

(** The first occurrence of a character cuts a string in one way only. *)
Lemma cut_at_first (c : ascii) (x x' y y' : str) :
  ~ In c x -> ~ In c x' -> x ++ c :: y = x' ++ c :: y' -> x = x' /\ y = y'.
Proof.
  revert x'; induction x as [|d x IH]; intros [|d' x'] Hx Hx' H;
    simpl in *; inversion H; subst; try tauto.
  destruct (IH x') as [-> ->]; auto.
Qed.

Lemma split_nonempty (c : ascii) (s : str) : split c s <> [].
Proof.
  destruct s as [|x s]; simpl; [discriminate|].
  destruct (Ascii.eqb x c); [discriminate|].
  destruct (split c s); discriminate.
Qed.

Lemma join_cons (sep t : str) (u : str) (ts : list str) :
  join sep (t :: u :: ts) = t ++ sep ++ join sep (u :: ts).
Proof. reflexivity. Qed.

Lemma join_split (c : ascii) (s : str) : join [c] (split c s) = s.
Proof.
  induction s as [|x s IH]; [reflexivity|].
  pose proof (split_nonempty c s) as Hne.
  cbn [split]. destruct (Ascii.eqb x c) eqn:E.
  - apply Ascii.eqb_eq in E; subst x.
    destruct (split c s) as [|t ts]; [congruence|].
    rewrite join_cons, IH. reflexivity.
  - destruct (split c s) as [|t ts]; [congruence|].
    destruct ts as [|u ts].
    + simpl in *. now rewrite IH.
    + rewrite join_cons. rewrite join_cons in IH. rewrite <- IH. reflexivity.
Qed.

Lemma split_tokens (c : ascii) (s : str) :
  forall t, In t (split c s) -> ~ In c t.
Proof.
  induction s as [|x s IH]; intros t Ht; cbn [split] in Ht.
  - destruct Ht as [<-|[]]. auto.
  - destruct (Ascii.eqb x c) eqn:E.
    + destruct Ht as [<-|Ht]; auto.
    + apply Ascii.eqb_neq in E.
      destruct (split c s) as [|t0 ts].
      * destruct Ht as [<-|[]]. intros [H|[]]. congruence.
      * destruct Ht as [<-|Ht].
        -- intros [H|H]; [congruence|]. apply (IH t0); simpl; auto.
        -- apply IH. now right.
Qed.

Lemma join_snoc (sep t : str) (ts : list str) :
  ts <> [] -> join sep (ts ++ [t]) = join sep ts ++ sep ++ t.
Proof.
  induction ts as [|u ts IH]; intros Hne; [congruence|].
  destruct ts as [|v ts].
  - reflexivity.
  - change ((u :: v :: ts) ++ [t]) with (u :: (v :: ts) ++ [t]).
    simpl app at 1. rewrite !join_cons.
    change (v :: ts ++ [t]) with ((v :: ts) ++ [t]).
    rewrite IH by discriminate. now rewrite <- !app_assoc.
Qed.

Lemma last_in {A} (l : list A) (d : A) : l <> [] -> In (last l d) l.
Proof.
  induction l as [|a l IH]; intros Hne; [congruence|].
  destruct l as [|b l]; [now left|].
  right. apply IH. discriminate.
Qed.

(** A name is its last token, or what precedes it, an underscore and the
    last token. *)
Lemma name_decomposition (p : str) :
  ~ In underscore (last_token p) /\
  ((removelast (split underscore p) = [] /\ p = last_token p) \/
   (removelast (split underscore p) <> [] /\
    p = join [underscore] (removelast (split underscore p))
        ++ underscore :: last_token p)).
Proof.
  unfold last_token.
  pose proof (split_nonempty underscore p) as Hne.
  pose proof (@app_removelast_last str (split underscore p) [] Hne) as Hs.
  split.
  - apply (split_tokens underscore p). now apply last_in.
  - pose proof (join_split underscore p) as Hj. rewrite Hs in Hj.
    destruct (removelast (split underscore p)) as [|t ts] eqn:Er.
    + left. split; [reflexivity|]. symmetry. exact Hj.
    + right. split; [discriminate|].
      rewrite join_snoc in Hj by discriminate. symmetry. exact Hj.
Qed.

Lemma before_last_spec (c : ascii) (s : str) :
  forall p, before_last c s = Some p -> exists y, s = p ++ c :: y.
Proof.
  induction s as [|x s IH]; intros p H; simpl in H; [discriminate|].
  destruct (before_last c s) as [q|].
  - inversion H; subst. destruct (IH q eq_refl) as [y ->]. now exists y.
  - destruct (Ascii.eqb x c) eqn:E; [|discriminate].
    apply Ascii.eqb_eq in E. inversion H; subst. now exists s.
Qed.

Lemma rsplit1_head_prefix (c : ascii) (s : str) :
  exists y, s = rsplit1_head c s ++ y.
Proof.
  unfold rsplit1_head. destruct (before_last c s) as [p|] eqn:E.
  - destruct (before_last_spec c s E) as [y ->]. now exists (c :: y).
  - exists []. now rewrite app_nil_r.
Qed.

Lemma digits_no_underscore (d : uint) :
  ~ In underscore (lit (NilEmpty.string_of_uint d)).
Proof.
  induction d; simpl; intros H; try tauto;
    destruct H as [H|H]; try discriminate; tauto.
Qed.

Lemma dec_no_underscore (n : nat) : ~ In underscore (dec n).
Proof. apply digits_no_underscore. Qed.

Lemma dec_inj (a b : nat) : dec a = dec b -> a = b.
Proof.
  unfold dec, lit. intros H.
  apply (f_equal string_of_list_ascii) in H.
  rewrite !string_of_list_ascii_of_string in H.
  apply (f_equal NilEmpty.uint_of_string) in H.
  rewrite !NilEmpty.usu in H. inversion H.
  now apply Unsigned.to_uint_inj.
Qed.

(** ** The names [splice_name] builds *)

Lemma splice_name_shape (i : nat) (p : str) :
  splice_name i p =
  splice_base p ++ underscore :: splice_word (i + 1) ++ underscore :: last_token p.
Proof.
  unfold splice_name, splice_base, splice_word, last_token.
  rewrite <- !app_assoc. reflexivity.
Qed.

Lemma splice_word_no_underscore (k : nat) : ~ In underscore (splice_word k).
Proof.
  unfold splice_word. intros H. apply in_app_or in H. destruct H as [H|H].
  - simpl in H. repeat (destruct H as [H|H]; [discriminate|]). exact H.
  - now apply dec_no_underscore in H.
Qed.

Lemma splice_token_shape (k : nat) :
  splice_token k = underscore :: splice_word k ++ [underscore].
Proof. unfold splice_token, splice_word. rewrite <- !app_assoc. reflexivity. Qed.

Lemma splice_tag_in_word (k : nat) (s : str) :
  occurs (underscore :: splice_word k) s -> occurs SPLICE_TAG s.
Proof.
  intros [x [y ->]]. exists x, (dec k ++ y).
  unfold splice_word, SPLICE_TAG. simpl. rewrite <- ?app_assoc. reflexivity.
Qed.

(** What occurs in the base of a name occurs in the name. *)
Lemma occurs_in_base (p q : str) :
  q <> [] -> occurs q (splice_base p) -> occurs q p.
Proof.
  intros Hq [x [y H]]. unfold splice_base in H.
  destruct (name_decomposition p) as [_ [[Er _]|[_ Hp]]].
  - rewrite Er in H. simpl in H. unfold rsplit1_head in H. simpl in H.
    destruct x; [|discriminate]. destruct q; [congruence|discriminate].
  - destruct (rsplit1_head_prefix dash
                (join [underscore] (removelast (split underscore p))))
      as [z Hz].
    rewrite Hz, H in Hp. exists x, (y ++ z ++ underscore :: last_token p).
    etransitivity; [exact Hp|]. now rewrite <- !app_assoc.
Qed.

Lemma snoc_eq_cut (c : ascii) (w : str) :
  ~ In c w -> forall l m, w ++ [c] = l ++ c :: m -> l = w /\ m = [].
Proof.
  induction w as [|d w IH]; intros Hw [|e l] m H; simpl in *.
  - inversion H. auto.
  - inversion H. destruct l; discriminate.
  - inversion H. subst. tauto.
  - inversion H. subst. destruct (IH (fun F => Hw (or_intror F)) l m) as [-> ->];
      auto.
Qed.

Section OneOrientation.
(** [own] and [other] are the two orientation words; [p] is a name of
    orientation [own]. *)
Variables own other : str.
Hypothesis other_word : ~ In underscore other.
Hypothesis other_not_splice :
  forall k y y', splice_word k ++ y <> other ++ y'.
Hypothesis words_differ :
  forall t, startswith own t = true -> startswith other t = false.

Variable p : str.
Hypothesis last_is_own : startswith own (last_token p) = true.
Hypothesis other_absent : str_in (underscore :: other) p = false.
Hypothesis splice_absent : str_in SPLICE_TAG p = false.

Lemma last_token_no_underscore : ~ In underscore (last_token p).
Proof using. apply name_decomposition. Qed.

Lemma own_tag_kept (i : nat) :
  str_in (underscore :: own) (splice_name i p) = true.
Proof using last_is_own.
  apply str_in_spec. apply startswith_spec in last_is_own.
  destruct last_is_own as [y Hy].
  exists (splice_base p ++ underscore :: splice_word (i + 1)), y.
  rewrite splice_name_shape, Hy. simpl. rewrite <- !app_assoc. reflexivity.
Qed.

Lemma other_tag_absent (i : nat) :
  str_in (underscore :: other) (splice_name i p) = false.
Proof using other_word other_not_splice words_differ last_is_own other_absent.
  apply str_in_false. intros Hocc. rewrite splice_name_shape in Hocc.
  apply occurrence_app_cons in Hocc.
  destruct Hocc as [HB|[HU|[l [m [E [[x Hx] [y Hy]]]]]]].
  - apply occurs_in_base in HB; [|discriminate].
    apply str_in_spec in HB. rewrite other_absent in HB. discriminate.
  - apply occurrence_app_cons in HU.
    destruct HU as [HW|[HT|[l [m [E [[x Hx] [y Hy]]]]]]].
    + apply (@occurrence_has_chars _ _ underscore) in HW; [|now left].
      now apply splice_word_no_underscore in HW.
    + apply (@occurrence_has_chars _ _ underscore) in HT; [|now left].
      now apply last_token_no_underscore in HT.
    + destruct l as [|c l]; simpl in E; injection E; intros; subst m || subst c.
      * assert (S : startswith other (last_token p) = true)
          by (apply startswith_spec; eauto).
        rewrite (words_differ _ last_is_own) in S. discriminate.
      * apply (@splice_word_no_underscore (i + 1)). rewrite Hx.
        apply in_or_app. right. now left.
  - destruct l as [|c l]; simpl in E; injection E; intros; subst m || subst c.
    + now apply other_not_splice in Hy.
    + apply other_word. match goal with H : other = _ |- _ => rewrite H end.
      apply in_or_app. right. now left.
Qed.

Lemma token_occurs_iff (i k : nat) :
  str_in (splice_token k) (splice_name i p) = (k =? i + 1).
Proof using splice_absent.
  clear last_is_own other_absent.
  destruct (k =? i + 1) eqn:Ek.
  - apply Nat.eqb_eq in Ek. subst k. apply str_in_spec.
    exists (splice_base p), (last_token p).
    rewrite splice_name_shape, splice_token_shape. simpl.
    rewrite <- !app_assoc. reflexivity.
  - apply Nat.eqb_neq in Ek. apply str_in_false. intros Hocc.
    rewrite splice_name_shape, splice_token_shape in Hocc.
    assert (Hbase : ~ occurs (underscore :: splice_word k) (splice_base p)).
    { intros HB. apply splice_tag_in_word in HB.
      apply occurs_in_base in HB; [|discriminate].
      apply str_in_spec in HB. rewrite splice_absent in HB. discriminate. }
    assert (Hneq : splice_word (i + 1) <> splice_word k).
    { unfold splice_word. intros Hw.
      apply app_inv_head in Hw. apply dec_inj in Hw. congruence. }
    pose proof (@splice_word_no_underscore k) as Hwk.
    pose proof (@splice_word_no_underscore (i + 1)) as Hwi.
    pose proof last_token_no_underscore as HT.
    remember (splice_word k) as wk eqn:Ewk.
    remember (splice_word (i + 1)) as wi eqn:Ewi.
    remember (last_token p) as T eqn:ET.
    clear Ewk Ewi ET.
    apply occurrence_app_cons in Hocc.
    destruct Hocc as [HB|[HU|[l [m [E [[x Hx] [y Hy]]]]]]].
    + apply Hbase. destruct HB as [x [y ->]].
      exists x, (underscore :: y). simpl. rewrite <- !app_assoc. reflexivity.
    + apply occurrence_app_cons in HU.
      destruct HU as [HW|[HT'|[l [m [E [[x Hx] [y Hy]]]]]]].
      * apply (@occurrence_has_chars _ _ underscore) in HW; [tauto|now left].
      * apply (@occurrence_has_chars _ _ underscore) in HT'; [tauto|now left].
      * destruct l as [|c l]; simpl in E; inversion E; subst.
        -- apply HT.
           apply in_or_app. left. apply in_or_app. right. now left.
        -- apply Hwi. apply in_or_app. right. now left.
    + destruct l as [|c l]; simpl in E; inversion E; subst.
      * rewrite <- app_assoc in Hy. simpl in Hy.
        apply cut_at_first in Hy; tauto.
      * match goal with H : _ ++ [underscore] = _ |- _ =>
          apply snoc_eq_cut in H; [|assumption];
          destruct H as [-> ->] end.
        apply Hbase. exists x, []. now rewrite app_nil_r.
Qed.
End OneOrientation.

Lemma forward_splice_name (p : str) :
  forward_name p = true -> str_in SPLICE_TAG p = false ->
  forall i k,
    str_in LEFT_TAG (splice_name i p) = true /\
    str_in RIGHT_TAG (splice_name i p) = false /\
    str_in (splice_token k) (splice_name i p) = (k =? i + 1).
Proof.
  unfold forward_name. rewrite !andb_true_iff, negb_true_iff.
  intros [[_ HR] HT] HS i k.
  assert (W : ~ In underscore (lit "RIGHT"))
    by (simpl; intuition discriminate).
  assert (N : forall z y y', splice_word z ++ y <> lit "RIGHT" ++ y')
    by (intros; unfold splice_word; simpl; discriminate).
  assert (D : forall t, startswith (lit "LEFT") t = true ->
                        startswith (lit "RIGHT") t = false).
  { intros [|c t] H; [reflexivity|].
    change (Ascii.eqb "L"%char c && startswith (lit "EFT") t = true) in H.
    apply andb_true_iff in H. destruct H as [H _].
    apply Ascii.eqb_eq in H. subst c. reflexivity. }
  split; [|split].
  - exact (@own_tag_kept (lit "LEFT") p HT i).
  - exact (@other_tag_absent (lit "LEFT") (lit "RIGHT") W N D p HT HR i).
  - exact (@token_occurs_iff p HS i k).
Qed.

Lemma reverse_splice_name (p : str) :
  reverse_name p = true -> str_in SPLICE_TAG p = false ->
  forall i k,
    str_in RIGHT_TAG (splice_name i p) = true /\
    str_in LEFT_TAG (splice_name i p) = false /\
    str_in (splice_token k) (splice_name i p) = (k =? i + 1).
Proof.
  unfold reverse_name. rewrite !andb_true_iff, negb_true_iff.
  intros [[_ HL] HT] HS i k.
  assert (W : ~ In underscore (lit "LEFT"))
    by (simpl; intuition discriminate).
  assert (N : forall z y y', splice_word z ++ y <> lit "LEFT" ++ y')
    by (intros; unfold splice_word; simpl; discriminate).
  assert (D : forall t, startswith (lit "RIGHT") t = true ->
                        startswith (lit "LEFT") t = false).
  { intros [|c t] H; [reflexivity|].
    change (Ascii.eqb "R"%char c && startswith (lit "IGHT") t = true) in H.
    apply andb_true_iff in H. destruct H as [H _].
    apply Ascii.eqb_eq in H. subst c. reflexivity. }
  split; [|split].
  - exact (@own_tag_kept (lit "RIGHT") p HT i).
  - exact (@other_tag_absent (lit "RIGHT") (lit "LEFT") W N D p HT HL i).
  - exact (@token_occurs_iff p HS i k).
Qed.

(** ** Counting the names that carry a splice token *)

Lemma resolve_new_names (a b : list str) :
  snd (resolve_primer_names a b) =
  side_names fst 0 (list_prod a b) ++ side_names snd 0 (list_prod a b).
Proof.
  unfold resolve_primer_names, side_names; simpl.
  rewrite !map_map. f_equal; apply map_ext; intros [j item]; reflexivity.
Qed.

Lemma count_spliced_app (tag : str) (k : nat) (l l' : list str) :
  count_spliced tag k (l ++ l') = count_spliced tag k l + count_spliced tag k l'.
Proof. unfold count_spliced. now rewrite filter_app, length_app. Qed.

Lemma count_side_own (tag : str) (k : nat) (f : str * str -> str)
    (pairs : list (str * str)) :
  (forall item, In item pairs -> forall j,
      str_in tag (splice_name j (f item)) = true /\
      str_in (splice_token k) (splice_name j (f item)) = (k =? j + 1)) ->
  forall start,
    count_spliced tag k (side_names f start pairs) =
    if (start <? k) && (k <=? start + List.length pairs) then 1 else 0.
Proof.
  induction pairs as [|item pairs IH]; intros H start.
  - simpl. destruct (start <? k) eqn:E1, (k <=? start + 0) eqn:E2;
      try reflexivity.
    apply Nat.ltb_lt in E1. apply Nat.leb_le in E2. lia.
  - unfold count_spliced, side_names in *. simpl.
    destruct (H item (or_introl eq_refl) start) as [-> ->]. simpl.
    specialize (IH (fun it Hit => H it (or_intror Hit)) (S start)).
    destruct (k =? start + 1) eqn:E0; simpl; rewrite IH;
      destruct (S start <? k) eqn:E1, (k <=? S start + List.length pairs) eqn:E2,
               (start <? k) eqn:E3, (k <=? start + S (List.length pairs)) eqn:E4;
      simpl; try reflexivity; exfalso;
      rewrite ?Nat.eqb_eq, ?Nat.eqb_neq, ?Nat.ltb_lt, ?Nat.ltb_ge,
              ?Nat.leb_le, ?Nat.leb_gt in *; lia.
Qed.

Lemma count_side_other (tag : str) (k : nat) (f : str * str -> str)
    (pairs : list (str * str)) :
  (forall item, In item pairs -> forall j,
      str_in tag (splice_name j (f item)) = false) ->
  forall start, count_spliced tag k (side_names f start pairs) = 0.
Proof.
  induction pairs as [|item pairs IH]; intros H start; [reflexivity|].
  unfold count_spliced, side_names in *. simpl.
  rewrite (H item (or_introl eq_refl) start). simpl.
  apply IH. intros it Hit. apply H. now right.
Qed.

Lemma names_with_names (rows : Frame) (new_names : list str) :
  List.length rows = List.length new_names ->
  names (with_names rows new_names) = new_names.
Proof.
  revert new_names; induction rows as [|r rows IH]; intros [|n ns] H;
    simpl in *; try discriminate; auto.
  f_equal. apply IH. lia.
Qed.

Lemma resplice_new_df_names (i : nat) (df out : Frame) (a b : list str) :
  resplice_new_df i df a b = Append out ->
  names out = snd (resolve_primer_names a b).
Proof.
  unfold resplice_new_df. intros H.
  destruct (resolve_primer_names_lengths a b) as [Hk Hn].
  destruct (resolve_primer_names a b) as [keys new_names]; simpl in *.
  destruct (negb (List.length keys =? List.length new_names)); [discriminate|].
  destruct (join_left _ df) as [joined|] eqn:Ej in H; [|discriminate].
  apply join_left_ok in Ej. destruct Ej as [_ [_ ->]].
  inversion H; subst out. apply names_with_names.
  rewrite length_map. lia.
Qed.

Lemma oriented_forward (p : str) :
  (forward_name p || reverse_name p) = true ->
  str_in LEFT_TAG p = true -> forward_name p = true.
Proof.
  intros H HL. destruct (forward_name p); [reflexivity|].
  simpl in H. unfold reverse_name in H. rewrite HL in H.
  rewrite andb_false_r in H. discriminate.
Qed.

Lemma oriented_reverse (p : str) :
  (forward_name p || reverse_name p) = true ->
  str_in RIGHT_TAG p = true -> reverse_name p = true.
Proof.
  intros H HR. destruct (reverse_name p); [reflexivity|].
  rewrite orb_false_r in H. unfold forward_name in H. rewrite HR in H.
  rewrite andb_false_r in H. discriminate.
Qed.

(** The two counts for the new names of a product whose first side holds
    forward names and whose second side holds reverse names, or the other
    way round. *)
Lemma counts_of_new_names (a b : list str) (k : nat) :
  (forall p, In p a -> forward_name p = true /\ str_in SPLICE_TAG p = false) ->
  (forall p, In p b -> reverse_name p = true /\ str_in SPLICE_TAG p = false) ->
  1 <= k <= List.length a * List.length b ->
  (count_spliced LEFT_TAG k (snd (resolve_primer_names a b)) = 1 /\
   count_spliced RIGHT_TAG k (snd (resolve_primer_names a b)) = 1) /\
  (count_spliced LEFT_TAG k (snd (resolve_primer_names b a)) = 1 /\
   count_spliced RIGHT_TAG k (snd (resolve_primer_names b a)) = 1).
Proof.
  intros Ha Hb Hk.
  assert (Hin : (0 <? k) && (k <=? 0 + List.length (list_prod a b)) = true).
  { rewrite length_prod. apply andb_true_iff. split;
      [apply Nat.ltb_lt|apply Nat.leb_le]; lia. }
  assert (Hin' : (0 <? k) && (k <=? 0 + List.length (list_prod b a)) = true).
  { rewrite length_prod. apply andb_true_iff. split;
      [apply Nat.ltb_lt|apply Nat.leb_le]; lia. }
  rewrite !resolve_new_names, !count_spliced_app.
  assert (Fa : forall item, In item (list_prod a b) ->
                 forward_name (fst item) = true /\
                 str_in SPLICE_TAG (fst item) = false).
  { intros [x y] H. apply in_prod_iff in H. apply Ha. tauto. }
  assert (Fb : forall item, In item (list_prod a b) ->
                 reverse_name (snd item) = true /\
                 str_in SPLICE_TAG (snd item) = false).
  { intros [x y] H. apply in_prod_iff in H. apply Hb. tauto. }
  assert (Ga : forall item, In item (list_prod b a) ->
                 forward_name (snd item) = true /\
                 str_in SPLICE_TAG (snd item) = false).
  { intros [x y] H. apply in_prod_iff in H. apply Ha. tauto. }
  assert (Gb : forall item, In item (list_prod b a) ->
                 reverse_name (fst item) = true /\
                 str_in SPLICE_TAG (fst item) = false).
  { intros [x y] H. apply in_prod_iff in H. apply Hb. tauto. }
  repeat split.
  - rewrite (count_side_own LEFT_TAG k fst (list_prod a b)), Hin.
    + rewrite count_side_other; [reflexivity|].
      intros item H j. destruct (Fb item H) as [F S].
      apply (reverse_splice_name _ F S j k).
    + intros item H j. destruct (Fa item H) as [F S].
      destruct (forward_splice_name _ F S j k) as [? [? ?]]. auto.
  - rewrite (count_side_other RIGHT_TAG k fst (list_prod a b)).
    + rewrite count_side_own, Hin; [reflexivity|].
      intros item H j. destruct (Fb item H) as [F S].
      destruct (reverse_splice_name _ F S j k) as [? [? ?]]. auto.
    + intros item H j. destruct (Fa item H) as [F S].
      apply (forward_splice_name _ F S j k).
  - rewrite (count_side_other LEFT_TAG k fst (list_prod b a)).
    + rewrite count_side_own, Hin'; [reflexivity|].
      intros item H j. destruct (Ga item H) as [F S].
      destruct (forward_splice_name _ F S j k) as [? [? ?]]. auto.
    + intros item H j. destruct (Gb item H) as [F S].
      apply (reverse_splice_name _ F S j k).
  - rewrite (count_side_own RIGHT_TAG k fst (list_prod b a)), Hin'.
    + rewrite count_side_other; [reflexivity|].
      intros item H j. destruct (Ga item H) as [F S].
      apply (forward_splice_name _ F S j k).
    + intros item H j. destruct (Gb item H) as [F S].
      destruct (reverse_splice_name _ F S j k) as [? [? ?]]. auto.
Qed.

(** C5 (amended). In a resolved odd group whose names are each of one
    orientation, with the last token beginning with [LEFT] or [RIGHT], and
    hold no [_splice] of their own, every pairing index [k] from 1 to
    [min * max] is carried by exactly one new name containing [_LEFT] and
    exactly one containing [_RIGHT]. *)
Theorem splice_index_pairs_left_with_right
    (i : nat) (df out : Frame) (k : nat) :
  (forall p, In p (names df) ->
     (forward_name p || reverse_name p) = true /\
     str_in SPLICE_TAG p = false) ->
  odd_count df = true ->
  resplice_group i df = Append out ->
  1 <= k <= Nat.min (List.length (fwd_primers df)) (List.length (rev_primers df))
            * Nat.max (List.length (fwd_primers df)) (List.length (rev_primers df)) ->
  count_spliced LEFT_TAG k (names out) = 1 /\
  count_spliced RIGHT_TAG k (names out) = 1.
Proof.
  intros Hnames Hodd H Hk.
  assert (Hf : forall p, In p (fwd_primers df) ->
                 forward_name p = true /\ str_in SPLICE_TAG p = false).
  { intros p Hp. apply filter_In in Hp. destruct Hp as [Hp HL].
    destruct (Hnames p Hp) as [Ho Hs]. split; [|exact Hs].
    now apply oriented_forward. }
  assert (Hr : forall p, In p (rev_primers df) ->
                 reverse_name p = true /\ str_in SPLICE_TAG p = false).
  { intros p Hp. apply filter_In in Hp. destruct Hp as [Hp HR].
    destruct (Hnames p Hp) as [Ho Hs]. split; [|exact Hs].
    now apply oriented_reverse. }
  unfold resplice_group in H. rewrite Hodd in H.
  destruct (List.length (rev_primers df) <? List.length (fwd_primers df)) eqn:E1.
  - apply Nat.ltb_lt in E1. apply resplice_new_df_names in H. rewrite H.
    apply (counts_of_new_names _ _ Hf Hr).
    rewrite Nat.min_r, Nat.max_l in Hk by lia. lia.
  - apply Nat.ltb_ge in E1.
    destruct (List.length (fwd_primers df) <? List.length (rev_primers df)) eqn:E2;
      [|discriminate].
    apply Nat.ltb_lt in E2. apply resplice_new_df_names in H. rewrite H.
    apply (counts_of_new_names _ _ Hf Hr).
    rewrite Nat.min_l, Nat.max_r in Hk by lia. lia.
Qed.

Lemma splice_index_pairs_left_with_right_witness :
  count_spliced LEFT_TAG 2
    [lit "AMP1_splice1_LEFT"; lit "AMP1_splice2_LEFT";
     lit "AMP1_splice1_RIGHT"; lit "AMP1_splice2_RIGHT-2"] = 1 /\
  count_spliced RIGHT_TAG 2
    [lit "AMP1_splice1_LEFT"; lit "AMP1_splice2_LEFT";
     lit "AMP1_splice1_RIGHT"; lit "AMP1_splice2_RIGHT-2"] = 1.
Proof.
  apply (@splice_index_pairs_left_with_right 0 amp1
           [primer_as "AMP1_LEFT" "AMP1_splice1_LEFT";
            primer_as "AMP1_LEFT" "AMP1_splice2_LEFT";
            primer_as "AMP1_RIGHT" "AMP1_splice1_RIGHT";
            primer_as "AMP1_RIGHT-2" "AMP1_splice2_RIGHT-2"] 2).
  - intros p Hp. simpl in Hp.
    destruct Hp as [<-|[<-|[<-|[]]]]; split; reflexivity.
  - reflexivity.
  - reflexivity.
  - vm_compute. lia.
Defined.

(** C5 (as stated) fails: a primer name that holds one orientation tag and
    a splice token of its own gives two new [_LEFT] names with
    [_splice2_]; a primer name whose [_LEFT] is not in its last token can
    lose it, which leaves no new [_LEFT] name at all. *)
Lemma splice_token_of_the_name_is_counted :
  (dedup_primers (ingest [bed_row "AMP7_splice2_LEFT"; bed_row "AMP7_splice2_RIGHT";
                          bed_row "AMP7_splice2_RIGHT-2"]) = Ok [amp7] /\
   (forall p, In p (names amp7) ->
      xorb (str_in LEFT_TAG p) (str_in RIGHT_TAG p) = true) /\
   odd_count amp7 = true /\
   List.length (fwd_primers amp7) = 1 /\ List.length (rev_primers amp7) = 2 /\
   exists out,
     resplice_group 0 amp7 = Append out /\
     names out = [lit "AMP7_splice2_splice1_LEFT"; lit "AMP7_splice2_splice2_LEFT";
                  lit "AMP7_splice2_splice1_RIGHT";
                  lit "AMP7_splice2_splice2_RIGHT-2"] /\
     count_spliced LEFT_TAG 2 (names out) = 2) /\
  (dedup_primers (ingest [bed_row "AMP8-2_LEFT_alt"; bed_row "AMP8_alt_RIGHT";
                          bed_row "AMP8_alt_RIGHT-2"]) = Ok [amp8] /\
   (forall p, In p (names amp8) ->
      xorb (str_in LEFT_TAG p) (str_in RIGHT_TAG p) = true) /\
   odd_count amp8 = true /\
   List.length (fwd_primers amp8) = 1 /\ List.length (rev_primers amp8) = 2 /\
   exists out,
     resplice_group 0 amp8 = Append out /\
     names out = [lit "AMP8_splice1_alt"; lit "AMP8_splice2_alt";
                  lit "AMP8_alt_splice1_RIGHT"; lit "AMP8_alt_splice2_RIGHT-2"] /\
     count_spliced LEFT_TAG 1 (names out) = 0).
Proof.
  split; (split; [reflexivity|]; split;
    [intros p Hp; simpl in Hp; destruct Hp as [<-|[<-|[<-|[]]]]; reflexivity
    |split; [reflexivity|]; split; [reflexivity|]; split; [reflexivity|];
     eexists; split; [reflexivity|]; split; reflexivity]).
Qed.

(** ** Further checks on concrete inputs *)

Example split_example :
  split underscore (lit "AMP1_RIGHT-2") = [lit "AMP1"; lit "RIGHT-2"] /\
  split underscore [] = [[]].
Proof. split; reflexivity. Qed.

Example rsplit1_head_example :
  rsplit1_head dash (lit "AMP-1-2") = lit "AMP-1" /\
  rsplit1_head dash (lit "AMP1") = lit "AMP1".
Proof. split; reflexivity. Qed.

Example amplicon_of_example :
  amplicon_of (lit "AMP1_RIGHT-2") = lit "AMP1" /\
  amplicon_of (lit "AMP1_LEFT") = lit "AMP1".
Proof. split; reflexivity. Qed.

Example splice_name_example :
  splice_name 0 (lit "AMP1_RIGHT-2") = lit "AMP1_splice1_RIGHT-2" /\
  splice_name 11 (lit "AMP-2_LEFT") = lit "AMP_splice12_LEFT".
Proof. split; reflexivity. Qed.

(** A single amplicon with a repeated and a unique name: the inner loop
    leaves [i = 1], and the assignment into the one-element list raises. *)
Example dedup_single_mixed_group_raises :
  dedup_primers
    (ingest [bed_row "AMP2_LEFT"; bed_row "AMP2_LEFT"; bed_row "AMP2_RIGHT"])
  = Raise IndexError.
Proof. reflexivity. Qed.

(** With the repeated name in the second of two amplicons the index left
    by the inner loop happens to be the right one. *)
Example dedup_repeated_names_in_second_group :
  option_map (map names)
    (match dedup_primers (ingest rows_dup_second) with
     | Ok out => Some out
     | Raise _ => None
     end) =
  Some [[lit "AMP3_LEFT"; lit "AMP3_RIGHT"];
        [lit "AMP2_LEFT-1"; lit "AMP2_LEFT-2"; lit "AMP2_RIGHT"]].
Proof. reflexivity. Qed.

(** * Further properties *)

(** ** The resolver: its errors and the shape of its output *)

Lemma has_repeated_name_true_iff (df : Frame) :
  has_repeated_name df = true <-> ~ NoDup (names df).
Proof.
  rewrite <- has_repeated_name_false_iff.
  destruct (has_repeated_name df); split; congruence.
Qed.

Lemma resplice_new_df_throws (i : nat) (df : Frame) (a b : list str) (e : error) :
  resplice_new_df i df a b = Throw e <->
  e = ComputeError /\ (a = [] \/ b = [] \/ has_repeated_name df = true).
Proof.
  unfold resplice_new_df.
  destruct (resolve_primer_names_lengths a b) as [Hk Hn].
  destruct (resolve_primer_names a b) as [keys new_names]; simpl in Hk, Hn.
  rewrite Hk, Hn, Nat.eqb_refl. simpl. unfold join_left.
  destruct keys as [|key keys].
  - (* no pairing: the key column is empty *)
    split; [intros H; inversion H|intros [-> _]; reflexivity].
    split; [reflexivity|].
    destruct a; [now left|]. destruct b; [right; now left|].
    simpl in Hk. discriminate Hk.
  - assert (Ha : a <> []) by (intros ->; discriminate Hk).
    assert (Hb : b <> []).
    { intros ->. rewrite Nat.mul_0_r in Hk. discriminate Hk. }
    destruct (has_repeated_name df); split.
    + intros H. inversion H. auto.
    + intros [-> _]. reflexivity.
    + discriminate.
    + intros [_ [H|[H|H]]]; [contradiction|contradiction|discriminate].
Qed.

Lemma resplice_group_throws (i : nat) (df : Frame) (e : error) :
  resplice_group i df = Throw e <->
  e = ComputeError /\ odd_count df = true /\
  List.length (fwd_primers df) <> List.length (rev_primers df) /\
  (fwd_primers df = [] \/ rev_primers df = [] \/ ~ NoDup (names df)).
Proof.
  rewrite <- has_repeated_name_true_iff. unfold resplice_group.
  destruct (odd_count df).
  - destruct (List.length (rev_primers df) <? List.length (fwd_primers df)) eqn:E1.
    + apply Nat.ltb_lt in E1. rewrite resplice_new_df_throws.
      split; [intros [? ?]; repeat split; auto; try lia; tauto|tauto].
    + apply Nat.ltb_ge in E1.
      destruct (List.length (fwd_primers df) <? List.length (rev_primers df)) eqn:E2.
      * apply Nat.ltb_lt in E2. rewrite resplice_new_df_throws.
        split; [intros [? ?]; repeat split; auto; try lia; tauto|tauto].
      * apply Nat.ltb_ge in E2. split; [discriminate|].
        intros [_ [_ [H _]]]. lia.
  - split; [discriminate|]. intros [_ [H _]]. discriminate.
Qed.

Lemma resplice_new_df_never_breaks (i : nat) (df : Frame) (a b : list str) :
  resplice_new_df i df a b <> Break.
Proof.
  unfold resplice_new_df.
  destruct (resolve_primer_names a b) as [keys new_names].
  destruct (negb _); [discriminate|].
  destruct (join_left keys df); discriminate.
Qed.

(** X1. The resolver fails on a group exactly when the group has an odd
    count, unequal numbers of forward and reverse primers and either no
    primer of one orientation or a repeated name: the join raises, on its
    empty key column or on its validation, and the assertion on the two
    lengths never does.  It breaks exactly when the group has an odd count
    and equal numbers of forward and reverse primers. *)
Theorem resolver_group_outcomes (i : nat) (df : Frame) :
  (forall e,
      resplice_group i df = Throw e <->
      e = ComputeError /\ odd_count df = true /\
      List.length (fwd_primers df) <> List.length (rev_primers df) /\
      (fwd_primers df = [] \/ rev_primers df = [] \/ ~ NoDup (names df))) /\
  (resplice_group i df = Break <->
   odd_count df = true /\
   List.length (fwd_primers df) = List.length (rev_primers df)).
Proof.
  split; [intros e; apply resplice_group_throws|].
  unfold resplice_group. destruct (odd_count df).
  - destruct (List.length (rev_primers df) <? List.length (fwd_primers df)) eqn:E1.
    + apply Nat.ltb_lt in E1. split.
      * intros H. now apply resplice_new_df_never_breaks in H.
      * intros [_ H]. lia.
    + apply Nat.ltb_ge in E1.
      destruct (List.length (fwd_primers df) <? List.length (rev_primers df)) eqn:E2.
      * apply Nat.ltb_lt in E2. split.
        -- intros H. now apply resplice_new_df_never_breaks in H.
        -- intros [_ H]. lia.
      * apply Nat.ltb_ge in E2. split; [intros _; split; [reflexivity|lia]|auto].
  - split; [discriminate|intros [H _]; discriminate].
Qed.

Lemma resplice_loop_outcome (frames : list Frame) :
  forall i acc,
    match resplice_loop i frames acc with
    | Ok out =>
        exists res,
          out = acc ++ res /\ List.length res <= List.length frames /\
          (forall j df, nth_error res j = Some df ->
             exists g, nth_error frames j = Some g /\
                       resplice_group (i + j) g = Append df) /\
          (List.length res < List.length frames ->
             exists g, nth_error frames (List.length res) = Some g /\
                       resplice_group (i + List.length res) g = Break)
    | Raise e =>
        exists j g,
          nth_error frames j = Some g /\
          resplice_group (i + j) g = Throw e /\
          (forall j', j' < j ->
             exists g' df', nth_error frames j' = Some g' /\
                            resplice_group (i + j') g' = Append df')
    end.
Proof.
  induction frames as [|g frames IH]; intros i acc; simpl.
  - exists []. rewrite app_nil_r. repeat split; auto.
    + intros [|j] df H; discriminate.
    + simpl. lia.
  - destruct (resplice_group i g) as [new_df| |e] eqn:Eg.
    + specialize (IH (S i) (acc ++ [new_df])).
      destruct (resplice_loop (S i) frames (acc ++ [new_df])) as [out|e].
      * destruct IH as [res [-> [Hlen [Hres Hbrk]]]].
        exists (new_df :: res). rewrite <- app_assoc. simpl.
        split; [reflexivity|]. split; [lia|]. split.
        -- intros [|j] df H; simpl in H.
           ++ inversion H; subst. exists g. now rewrite Nat.add_0_r.
           ++ destruct (Hres j df H) as [g' [H1 H2]]. exists g'.
              split; [exact H1|]. now rewrite Nat.add_succ_r.
        -- intros H. destruct Hbrk as [g' [H1 H2]]; [lia|].
           exists g'. split; [exact H1|]. now rewrite Nat.add_succ_r.
      * destruct IH as [j [g' [H1 [H2 H3]]]].
        exists (S j), g'. split; [exact H1|]. split.
        -- now rewrite Nat.add_succ_r.
        -- intros [|j'] Hj'.
           ++ exists g, new_df. now rewrite Nat.add_0_r.
           ++ destruct (H3 j') as [g'' [df' [H4 H5]]]; [lia|].
              exists g'', df'. split; [exact H4|]. now rewrite Nat.add_succ_r.
    + exists []. rewrite app_nil_r. split; [reflexivity|]. split; [simpl; lia|].
      split.
      * intros [|j] df H; discriminate.
      * intros _. exists g. now rewrite Nat.add_0_r.
    + exists 0, g. rewrite Nat.add_0_r. split; [reflexivity|].
      split; [exact Eg|]. intros j' Hj'. lia.
Qed.

(** X2. When the resolver returns, its output follows the input position by
    position: the frame at position [j] is what the loop body made of the
    input group at position [j], and the output ends early only at a
    group on which the loop breaks. *)
Theorem resolver_output_follows_input (l out : list Frame) :
  resplice_primers l = Ok out ->
  List.length out <= List.length l /\
  (forall j df, nth_error out j = Some df ->
     exists g, nth_error l j = Some g /\ resplice_group j g = Append df) /\
  (List.length out < List.length l ->
     exists g, nth_error l (List.length out) = Some g /\
               resplice_group (List.length out) g = Break).
Proof.
  intros H. pose proof (resplice_loop_outcome l 0 []) as L.
  unfold resplice_primers in H. rewrite H in L.
  destruct L as [res [-> L]]. exact L.
Qed.

Lemma resolver_output_follows_input_witness :
  List.length [amp3] <= List.length [amp3; amp5_degenerate; amp1] /\
  (forall j df, nth_error [amp3] j = Some df ->
     exists g, nth_error [amp3; amp5_degenerate; amp1] j = Some g /\
               resplice_group j g = Append df) /\
  (List.length [amp3] < List.length [amp3; amp5_degenerate; amp1] ->
     exists g, nth_error [amp3; amp5_degenerate; amp1] (List.length [amp3]) = Some g /\
               resplice_group (List.length [amp3]) g = Break).
Proof.
  apply (@resolver_output_follows_input [amp3; amp5_degenerate; amp1] [amp3]).
  reflexivity.
Defined.

(** X3. When the resolver raises, the exception comes from the join of the
    first group that is odd, unbalanced and has no primer of one
    orientation or a repeated name; every group before it was appended. *)
Theorem resolver_raises_at_failed_join (l : list Frame) (e : error) :
  resplice_primers l = Raise e ->
  e = ComputeError /\
  exists j g,
    nth_error l j = Some g /\ odd_count g = true /\
    List.length (fwd_primers g) <> List.length (rev_primers g) /\
    (fwd_primers g = [] \/ rev_primers g = [] \/ ~ NoDup (names g)) /\
    (forall j', j' < j ->
       exists g' df', nth_error l j' = Some g' /\
                      resplice_group j' g' = Append df').
Proof.
  intros H. pose proof (resplice_loop_outcome l 0 []) as L.
  unfold resplice_primers in H. rewrite H in L.
  destruct L as [j [g [H1 [H2 H3]]]]. simpl in H2.
  apply resplice_group_throws in H2. destruct H2 as [-> [Ho [Hne Hnd]]].
  split; [reflexivity|]. exists j, g. auto.
Qed.

Lemma resolver_raises_at_failed_join_witness :
  ComputeError = ComputeError /\
  exists j g,
    nth_error [amp3; amp9_forward_only; amp2_repeated] j = Some g /\
    odd_count g = true /\
    List.length (fwd_primers g) <> List.length (rev_primers g) /\
    (fwd_primers g = [] \/ rev_primers g = [] \/ ~ NoDup (names g)) /\
    (forall j', j' < j ->
       exists g' df',
         nth_error [amp3; amp9_forward_only; amp2_repeated] j' = Some g' /\
         resplice_group j' g' = Append df').
Proof.
  apply (@resolver_raises_at_failed_join
           [amp3; amp9_forward_only; amp2_repeated] ComputeError).
  reflexivity.
Defined.

Lemma resplice_loop_even (frames : list Frame) :
  (forall df, In df frames -> odd_count df = false) ->
  forall i acc, resplice_loop i frames acc = Ok (acc ++ frames).
Proof.
  induction frames as [|g frames IH]; intros H i acc; simpl.
  - now rewrite app_nil_r.
  - unfold resplice_group. rewrite (H g (or_introl eq_refl)).
    rewrite IH by (intros df Hdf; apply H; now right).
    now rewrite <- app_assoc.
Qed.

(** X4. A list in which every group has an even count comes back from the
    resolver as it is. *)
Theorem resolver_returns_even_groups_unchanged (l : list Frame) :
  (forall df, In df l -> odd_count df = false) ->
  resplice_primers l = Ok l.
Proof. intros H. unfold resplice_primers. now rewrite resplice_loop_even. Qed.

Lemma resolver_returns_even_groups_unchanged_witness :
  resplice_primers [amp3; amp6] = Ok [amp3; amp6].
Proof.
  apply resolver_returns_even_groups_unchanged.
  intros df [<-|[<-|[]]]; reflexivity.
Defined.

(** ** The finalizer: the empty result *)

(** X5. The finalizer raises exactly when no frame has both a name with
    [_LEFT] and a name with [_RIGHT]; the exception is the one of
    [pl.concat] on an empty list. *)
Theorem finalizer_raises_iff (mutated_frames : list Frame) (e : error) :
  finalize_primer_pairings mutated_frames = Raise e <->
  e = ValueError /\
  forall df, In df mutated_frames ->
    existsb (str_in LEFT_TAG) (names df) &&
    existsb (str_in RIGHT_TAG) (names df) = false.
Proof.
  unfold finalize_primer_pairings, final_frames.
  rewrite finalize_loop_filter with (keep :=
    fun df => existsb (str_in LEFT_TAG) (names df) &&
              existsb (str_in RIGHT_TAG) (names df))
    by (intros df; unfold fwd_keepers, rev_keepers;
        now rewrite !filter_nonempty_iff).
  simpl. unfold pl_concat.
  destruct (filter _ mutated_frames) as [|f fs] eqn:E.
  - split; [intros H; inversion H; split; [reflexivity|]|reflexivity || auto].
    + intros df Hdf.
      destruct (existsb (str_in LEFT_TAG) (names df) &&
                existsb (str_in RIGHT_TAG) (names df)) eqn:K; [|reflexivity].
      assert (Hin : In df []) by (rewrite <- E; apply filter_In; auto).
      destruct Hin.
    + intros [-> _]. reflexivity.
  - split; [discriminate|]. intros [_ H].
    assert (Hf : In f (f :: fs)) by now left.
    rewrite <- E in Hf. apply filter_In in Hf. destruct Hf as [Hf K].
    rewrite (H f Hf) in K. discriminate.
Qed.

(** ** Reading a new name back *)

Lemma split_app_sep (c : ascii) (a b : str) :
  split c (a ++ c :: b) = split c a ++ split c b.
Proof.
  induction a as [|x a IH]; cbn [app split].
  - now rewrite (proj2 (Ascii.eqb_eq c c) eq_refl).
  - rewrite IH. destruct (Ascii.eqb x c); [reflexivity|].
    pose proof (split_nonempty c a) as Hne.
    destruct (split c a) as [|t ts]; [congruence|]. reflexivity.
Qed.

Lemma split_no_sep (c : ascii) (w : str) : ~ In c w -> split c w = [w].
Proof.
  induction w as [|x w IH]; intros H; cbn [split]; [reflexivity|].
  destruct (Ascii.eqb x c) eqn:E.
  - apply Ascii.eqb_eq in E. subst. exfalso. apply H. now left.
  - rewrite IH by (intros F; apply H; now right). reflexivity.
Qed.

Lemma splice_name_split (i : nat) (p : str) :
  split underscore (splice_name i p) =
  split underscore (splice_base p) ++ [splice_word (i + 1); last_token p].
Proof.
  rewrite splice_name_shape, !split_app_sep.
  rewrite (@split_no_sep underscore _ (@splice_word_no_underscore (i + 1))).
  rewrite (@split_no_sep underscore _ (proj1 (name_decomposition p))). reflexivity.
Qed.

(** X6. The tokens of a new name are those of the kept base, then
    [splice{i+1}], then the last token of the old name; so the last token
    of the new name is that of the old one, with any suffix it carries. *)
Theorem splice_name_tokens (i : nat) (p : str) :
  split underscore (splice_name i p) =
    split underscore (splice_base p) ++ [splice_word (i + 1); last_token p] /\
  last_token (splice_name i p) = last_token p /\
  last (removelast (split underscore (splice_name i p))) [] = splice_word (i + 1).
Proof.
  pose proof (splice_name_split i p) as E. split; [exact E|].
  unfold last_token at 1. rewrite E.
  change [splice_word (i + 1); last_token p]
    with ([splice_word (i + 1)] ++ [last_token p]).
  rewrite app_assoc, last_last, removelast_last, last_last. auto.
Qed.

Lemma splice_name_inj (i j : nat) (p q : str) :
  splice_name i p = splice_name j q ->
  i = j /\ last_token p = last_token q /\ splice_base p = splice_base q.
Proof.
  intros H. apply (f_equal (split underscore)) in H.
  rewrite !splice_name_split in H.
  change [splice_word (i + 1); last_token p]
    with ([splice_word (i + 1)] ++ [last_token p]) in H.
  change [splice_word (j + 1); last_token q]
    with ([splice_word (j + 1)] ++ [last_token q]) in H.
  rewrite !app_assoc in H.
  apply app_inj_tail in H. destruct H as [H HT].
  apply app_inj_tail in H. destruct H as [HB HW].
  unfold splice_word in HW. apply app_inv_head in HW. apply dec_inj in HW.
  split; [lia|]. split; [exact HT|].
  rewrite <- (join_split underscore (splice_base p)), HB.
  apply join_split.
Qed.

(** X7. Two new names are equal exactly when they have the same pairing
    index, the same last token and the same kept base. *)
Theorem splice_name_determines_index (i j : nat) (p q : str) :
  splice_name i p = splice_name j q <->
  i = j /\ last_token p = last_token q /\ splice_base p = splice_base q.
Proof.
  split; [apply splice_name_inj|].
  intros [-> [HT HB]]. rewrite !splice_name_shape. now rewrite HT, HB.
Qed.

(** ** The names and the join keys of a resolved group *)

Lemma in_side_names (f : str * str -> str) (pairs : list (str * str)) :
  forall start n,
    In n (side_names f start pairs) ->
    exists j item, start <= j /\ In item pairs /\ n = splice_name j (f item).
Proof.
  unfold side_names.
  induction pairs as [|item pairs IH]; intros start n H; simpl in H; [tauto|].
  destruct H as [<-|H].
  - exists start, item. simpl. auto.
  - apply IH in H. destruct H as [j [it [Hj [Hin ->]]]].
    exists j, it. simpl. repeat split; auto. lia.
Qed.

Lemma side_names_NoDup (f : str * str -> str) (pairs : list (str * str)) :
  forall start, NoDup (side_names f start pairs).
Proof.
  induction pairs as [|item pairs IH]; intros start.
  - constructor.
  - change (side_names f start (item :: pairs))
      with (splice_name start (f item) :: side_names f (S start) pairs).
    constructor; [|apply IH].
    intros H. apply in_side_names in H.
    destruct H as [j [it [Hj [_ E]]]].
    apply splice_name_inj in E. lia.
Qed.

Lemma forward_reverse_last_tokens (p q : str) :
  forward_name p = true -> reverse_name q = true ->
  last_token p <> last_token q.
Proof.
  unfold forward_name, reverse_name. rewrite !andb_true_iff.
  intros [_ Hp] [_ Hq] E. rewrite E in Hp.
  destruct (last_token q) as [|c t]; [discriminate|].
  change (Ascii.eqb "L"%char c && startswith (lit "EFT") t = true) in Hp.
  change (Ascii.eqb "R"%char c && startswith (lit "IGHT") t = true) in Hq.
  apply andb_true_iff in Hp, Hq. destruct Hp as [Hp _], Hq as [Hq _].
  apply Ascii.eqb_eq in Hp, Hq. congruence.
Qed.

Lemma new_names_NoDup (a b : list str) :
  (forall p q, In p a -> In q b -> last_token p <> last_token q) ->
  NoDup (snd (resolve_primer_names a b)).
Proof.
  intros H. rewrite resolve_new_names.
  apply NoDup_app; try apply side_names_NoDup.
  intros n H1 H2.
  apply in_side_names in H1. destruct H1 as [j [[x y] [_ [Hxy ->]]]].
  apply in_side_names in H2. destruct H2 as [j' [[x' y'] [_ [Hxy' E]]]].
  apply splice_name_inj in E. destruct E as [_ [E _]]. simpl in E.
  apply in_prod_iff in Hxy, Hxy'. apply (H x y'); tauto.
Qed.

(** X8. In a resolved odd group whose names are each of one orientation, with
    the last token beginning with [LEFT] or [RIGHT], the new names are
    pairwise distinct. *)
Theorem resolved_names_are_distinct (i : nat) (df out : Frame) :
  (forall p, In p (names df) -> (forward_name p || reverse_name p) = true) ->
  odd_count df = true ->
  resplice_group i df = Append out ->
  NoDup (names out).
Proof.
  intros Hnames Hodd H.
  assert (Hf : forall p, In p (fwd_primers df) -> forward_name p = true).
  { intros p Hp. apply filter_In in Hp. destruct Hp as [Hp HL].
    now apply oriented_forward; [apply Hnames|]. }
  assert (Hr : forall p, In p (rev_primers df) -> reverse_name p = true).
  { intros p Hp. apply filter_In in Hp. destruct Hp as [Hp HR].
    now apply oriented_reverse; [apply Hnames|]. }
  unfold resplice_group in H. rewrite Hodd in H.
  destruct (List.length (rev_primers df) <? List.length (fwd_primers df)).
  - apply resplice_new_df_names in H. rewrite H. apply new_names_NoDup.
    intros p q Hp Hq E. symmetry in E. revert E.
    apply forward_reverse_last_tokens; auto.
  - destruct (List.length (fwd_primers df) <? List.length (rev_primers df));
      [|discriminate].
    apply resplice_new_df_names in H. rewrite H. apply new_names_NoDup.
    intros p q Hp Hq. apply forward_reverse_last_tokens; auto.
Qed.

Lemma resolved_names_are_distinct_witness :
  NoDup [lit "AMP1_splice1_LEFT"; lit "AMP1_splice2_LEFT";
         lit "AMP1_splice1_RIGHT"; lit "AMP1_splice2_RIGHT-2"].
Proof.
  apply (@resolved_names_are_distinct 0 amp1
           [primer_as "AMP1_LEFT" "AMP1_splice1_LEFT";
            primer_as "AMP1_LEFT" "AMP1_splice2_LEFT";
            primer_as "AMP1_RIGHT" "AMP1_splice1_RIGHT";
            primer_as "AMP1_RIGHT-2" "AMP1_splice2_RIGHT-2"]).
  - intros p Hp. simpl in Hp. destruct Hp as [<-|[<-|[<-|[]]]]; reflexivity.
  - reflexivity.
  - reflexivity.
Defined.

Lemma count_occ_fst_prod {A B} (dec : forall x y : A, {x = y} + {x <> y})
    (a : list A) (b : list B) (p : A) :
  count_occ dec (map fst (list_prod a b)) p = count_occ dec a p * List.length b.
Proof.
  induction a as [|x a IH]; [reflexivity|].
  change (list_prod (x :: a) b) with (map (fun y => (x, y)) b ++ list_prod a b).
  rewrite map_app, count_occ_app, IH, map_map. simpl map.
  assert (E : forall l : list B,
             count_occ dec (map (fun _ => x) l) p =
             if dec x p then List.length l else 0).
  { induction l as [|y l IHl]; simpl.
    - now destruct (dec x p).
    - rewrite IHl. now destruct (dec x p). }
  rewrite E. simpl. destruct (dec x p); simpl; lia.
Qed.

Lemma count_occ_snd_prod {A B} (dec : forall x y : B, {x = y} + {x <> y})
    (a : list A) (b : list B) (p : B) :
  count_occ dec (map snd (list_prod a b)) p = List.length a * count_occ dec b p.
Proof.
  induction a as [|x a IH]; [reflexivity|].
  change (list_prod (x :: a) b) with (map (fun y => (x, y)) b ++ list_prod a b).
  rewrite map_app, count_occ_app, IH, map_map. simpl map.
  rewrite map_id. simpl. lia.
Qed.

(** X9. Among the join keys a name occurs once for every partner it is paired
    with: as often as it is in [to_combine] times the length of
    [combine_to], plus the length of [to_combine] times as often as it is
    in [combine_to]. *)
Theorem join_keys_multiplicity (to_combine combine_to : list str) (p : str) :
  count_name p (fst (resolve_primer_names to_combine combine_to)) =
  count_name p to_combine * List.length combine_to +
  List.length to_combine * count_name p combine_to.
Proof.
  unfold resolve_primer_names, count_name; simpl.
  now rewrite count_occ_app, count_occ_fst_prod, count_occ_snd_prod.
Qed.

(** ** [partition_by]: what the parts are *)

Section PartitionBySpec.
Context {R K : Type}.
Variable keqb : K -> K -> bool.
Variable key : R -> K.
Hypothesis keqb_eq : forall a b, keqb a b = true <-> a = b.

Lemma keqb_refl (k : K) : keqb k k = true.
Proof using keqb_eq. now apply keqb_eq. Qed.

Lemma keqb_neq (a b : K) : a <> b -> keqb a b = false.
Proof using keqb_eq.
  intros H. destruct (keqb a b) eqn:E; [|reflexivity].
  apply keqb_eq in E. contradiction.
Qed.

Lemma has_key_iff (ks : list K) (k : K) :
  existsb (fun k' => keqb k' k) ks = true <-> In k ks.
Proof using keqb_eq.
  rewrite existsb_exists. split.
  - intros [k' [Hin E]]. apply keqb_eq in E. now subst.
  - intros H. exists k. split; [exact H|apply keqb_refl].
Qed.

Lemma in_add_key (ks : list K) (k k' : K) :
  In k' (add_key keqb ks k) <-> In k' ks \/ k' = k.
Proof using keqb_eq.
  unfold add_key. destruct (existsb (fun k0 => keqb k0 k) ks) eqn:E.
  - apply has_key_iff in E. split; [auto|]. intros [H| ->]; auto.
  - rewrite in_app_iff. simpl. intuition.
Qed.

Lemma add_key_NoDup (ks : list K) (k : K) :
  NoDup ks -> NoDup (add_key keqb ks k).
Proof using keqb_eq.
  intros H. unfold add_key.
  destruct (existsb (fun k0 => keqb k0 k) ks) eqn:E; [exact H|].
  apply NoDup_app; [exact H|repeat constructor; auto|].
  intros a Ha [<-|[]]. apply has_key_iff in Ha. congruence.
Qed.

Lemma first_seen_keys_snoc (l : list R) (r : R) :
  first_seen_keys keqb key (l ++ [r]) =
  add_key keqb (first_seen_keys keqb key l) (key r).
Proof using. unfold first_seen_keys. now rewrite fold_left_app. Qed.

Lemma first_seen_keys_spec (l : list R) :
  NoDup (first_seen_keys keqb key l) /\
  forall k, In k (first_seen_keys keqb key l) <-> exists r, In r l /\ key r = k.
Proof using keqb_eq.
  induction l as [|r l IH] using rev_ind.
  - split; [constructor|]. intros k. split; [intros []|intros [r [[] _]]].
  - destruct IH as [Hnd Hin]. rewrite first_seen_keys_snoc. split.
    + now apply add_key_NoDup.
    + intros k. rewrite in_add_key, Hin. split.
      * intros [[x [Hx E]]| ->].
        -- exists x. split; [apply in_or_app; now left|exact E].
        -- exists r. split; [apply in_or_app; right; now left|reflexivity].
      * intros [x [Hx E]]. apply in_app_or in Hx.
        destruct Hx as [Hx|[<-|[]]]; [left; eauto|now right].
Qed.

Lemma rows_with_key_snoc (k : K) (l : list R) (r : R) :
  rows_with_key keqb key k (l ++ [r]) =
  rows_with_key keqb key k l ++ (if keqb k (key r) then [r] else []).
Proof using. unfold rows_with_key. now rewrite filter_app. Qed.

Lemma add_row_groups (l : list R) (r : R) (ks : list K) :
  NoDup ks ->
  (~ In (key r) ks -> rows_with_key keqb key (key r) l = []) ->
  add_row keqb key r (map (fun k => (k, rows_with_key keqb key k l)) ks) =
  map (fun k => (k, rows_with_key keqb key k (l ++ [r])))
      (add_key keqb ks (key r)).
Proof using keqb_eq.
  induction ks as [|k ks IH]; intros Hnd Hempty.
  - unfold add_key. simpl. rewrite rows_with_key_snoc, keqb_refl.
    rewrite Hempty by tauto. reflexivity.
  - inversion Hnd as [|? ? Hk Hnd']; subst. cbn [map add_row].
    destruct (keqb k (key r)) eqn:E.
    + apply keqb_eq in E. subst k.
      unfold add_key. cbn [existsb]. rewrite keqb_refl. cbn [orb map].
      rewrite rows_with_key_snoc, keqb_refl. f_equal.
      apply map_ext_in. intros k' Hk'.
      rewrite rows_with_key_snoc, keqb_neq, app_nil_r; [reflexivity|].
      intros ->. contradiction.
    + rewrite IH; [|exact Hnd'|].
      * unfold add_key. cbn [existsb]. rewrite E. cbn [orb].
        assert (Ek : rows_with_key keqb key k (l ++ [r]) =
                     rows_with_key keqb key k l)
          by (now rewrite rows_with_key_snoc, E, app_nil_r).
        destruct (existsb (fun k' => keqb k' (key r)) ks); cbn [map app];
          now rewrite Ek.
      * intros Hn. apply Hempty. intros [->|H]; [|contradiction].
        rewrite keqb_refl in E. discriminate.
Qed.

Lemma fold_add_row_groups (l : list R) :
  forall l0,
    fold_left (fun parts r => add_row keqb key r parts) l
      (map (fun k => (k, rows_with_key keqb key k l0))
           (first_seen_keys keqb key l0)) =
    map (fun k => (k, rows_with_key keqb key k (l0 ++ l)))
        (first_seen_keys keqb key (l0 ++ l)).
Proof using keqb_eq.
  induction l as [|r l IH]; intros l0; simpl.
  - now rewrite app_nil_r.
  - destruct (first_seen_keys_spec l0) as [Hnd Hin].
    rewrite add_row_groups; [| exact Hnd |].
    + rewrite <- first_seen_keys_snoc, IH, <- app_assoc. reflexivity.
    + intros Hn. unfold rows_with_key.
      destruct (filter (fun r0 => keqb (key r) (key r0)) l0) as [|x xs] eqn:E;
        [reflexivity|].
      exfalso. apply Hn. apply Hin.
      assert (Hx : In x (x :: xs)) by now left.
      rewrite <- E in Hx. apply filter_In in Hx. destruct Hx as [Hx Hk].
      apply keqb_eq in Hk. eauto.
Qed.

(** The parts are the rows of each key, the keys in order of first
    appearance. *)
Lemma partition_by_groups (l : list R) :
  partition_by keqb key l =
  map (fun k => rows_with_key keqb key k l) (first_seen_keys keqb key l).
Proof using keqb_eq.
  unfold partition_by.
  pose proof (fold_add_row_groups l []) as H. simpl in H. rewrite H.
  now rewrite map_map.
Qed.
End PartitionBySpec.

Lemma filter_split_perm {A} (f : A -> bool) (l : list A) :
  Permutation (filter f l ++ filter (fun x => negb (f x)) l) l.
Proof.
  induction l as [|a l IH]; simpl; [constructor|].
  destruct (f a); simpl.
  - now constructor.
  - symmetry. apply Permutation_cons_app. now symmetry.
Qed.

Section PartitionByPerm.
Context {R K : Type}.
Variable keqb : K -> K -> bool.
Variable key : R -> K.
Hypothesis keqb_eq : forall a b, keqb a b = true <-> a = b.

Lemma rows_with_key_rest (k k' : K) (l : list R) :
  k' <> k ->
  rows_with_key keqb key k' (filter (fun r => negb (keqb k (key r))) l) =
  rows_with_key keqb key k' l.
Proof using keqb_eq.
  intros Hne. unfold rows_with_key.
  induction l as [|r l IH]; simpl; [reflexivity|].
  destruct (keqb k (key r)) eqn:E1; simpl.
  - apply keqb_eq in E1. rewrite <- E1, (keqb_neq keqb keqb_eq Hne). exact IH.
  - destruct (keqb k' (key r)); now rewrite IH.
Qed.

Lemma groups_perm (ks : list K) :
  forall l,
    NoDup ks -> (forall r, In r l -> In (key r) ks) ->
    Permutation (concat (map (fun k => rows_with_key keqb key k l) ks)) l.
Proof using keqb_eq.
  induction ks as [|k ks IH]; intros l Hnd Hall.
  - destruct l as [|r l]; [constructor|]. destruct (Hall r (or_introl eq_refl)).
  - inversion Hnd as [|? ? Hk Hnd']; subst. cbn [map concat].
    set (rest := filter (fun r => negb (keqb k (key r))) l).
    assert (E : map (fun k' => rows_with_key keqb key k' l) ks =
                map (fun k' => rows_with_key keqb key k' rest) ks).
    { apply map_ext_in. intros k' Hk'. symmetry.
      apply rows_with_key_rest. intros ->. contradiction. }
    rewrite E.
    apply Permutation_trans
      with (rows_with_key keqb key k l ++ rest);
      [|apply filter_split_perm].
    apply Permutation_app_head. apply IH; [exact Hnd'|].
    intros r Hr. apply filter_In in Hr. destruct Hr as [Hr Hn].
    destruct (Hall r Hr) as [Ek|H]; [|exact H].
    rewrite <- Ek, (keqb_refl keqb keqb_eq) in Hn. discriminate.
Qed.

(** [partition_by] loses and repeats no row; a part is never empty and
    holds the rows of one key in row order; no two parts have the same
    key. *)
Lemma partition_by_is_partition (l : list R) :
  Permutation (concat (partition_by keqb key l)) l /\
  (forall g, In g (partition_by keqb key l) ->
     g <> [] /\ exists k, g = rows_with_key keqb key k l) /\
  (forall i j g g' r r',
     nth_error (partition_by keqb key l) i = Some g ->
     nth_error (partition_by keqb key l) j = Some g' ->
     In r g -> In r' g' -> key r = key r' -> i = j).
Proof using keqb_eq.
  rewrite (partition_by_groups keqb key keqb_eq).
  destruct (first_seen_keys_spec keqb key keqb_eq l) as [Hnd Hin].
  split; [|split].
  - apply groups_perm; [exact Hnd|]. intros r Hr. apply Hin. eauto.
  - intros g Hg. apply in_map_iff in Hg. destruct Hg as [k [<- Hk]].
    split; [|eauto]. apply Hin in Hk. destruct Hk as [r [Hr E]].
    intros F. assert (H : In r (rows_with_key keqb key k l)).
    { apply filter_In. split; [exact Hr|]. apply keqb_eq. now rewrite E. }
    rewrite F in H. destruct H.
  - intros i j g g' r r' Hi Hj Hr Hr' E.
    rewrite nth_error_map in Hi, Hj.
    destruct (nth_error (first_seen_keys keqb key l) i) as [k|] eqn:Ei;
      [|discriminate].
    destruct (nth_error (first_seen_keys keqb key l) j) as [k'|] eqn:Ej;
      [|discriminate].
    simpl in Hi, Hj. inversion Hi; inversion Hj; subst.
    apply filter_In in Hr, Hr'. destruct Hr as [_ Hr], Hr' as [_ Hr'].
    apply keqb_eq in Hr, Hr'.
    apply (proj1 (NoDup_nth_error _) Hnd i j).
    + apply nth_error_Some. congruence.
    + congruence.
Qed.

Lemma same_key_same_part (l : list R) (r r' : R) :
  In r l -> In r' l -> key r = key r' ->
  exists g, In g (partition_by keqb key l) /\ In r g /\ In r' g.
Proof using keqb_eq.
  intros Hr Hr' E. rewrite (partition_by_groups keqb key keqb_eq).
  destruct (first_seen_keys_spec keqb key keqb_eq l) as [_ Hin].
  exists (rows_with_key keqb key (key r) l). split; [|split].
  - apply in_map_iff. exists (key r). split; [reflexivity|].
    apply Hin. eauto.
  - apply filter_In. split; [exact Hr|apply (keqb_refl keqb keqb_eq)].
  - apply filter_In. split; [exact Hr'|]. apply keqb_eq. exact E.
Qed.
End PartitionByPerm.

(** ** The partitioner of [main] *)

Lemma opt_str_eqb_eq (a b : option str) : opt_str_eqb a b = true <-> a = b.
Proof.
  destruct a as [x|], b as [y|]; simpl; try (split; congruence).
  rewrite eqb_eq. split; congruence.
Qed.

Lemma ingest_table_rows (rows : list BedRow) :
  ingest_table rows =
  map (fun x => (ingest_row x,
                 1 <? count_name (bed_name x) (map bed_name rows))) rows.
Proof.
  unfold ingest_table, is_duplicated, names. rewrite !map_map. simpl.
  apply combine_map_map.
Qed.

(** X10. The frames [main] hands to the deduplicator hold every ingested row
    once; a frame is never empty and holds the rows of one amplicon key
    in table order; no two frames have the same key. *)
Theorem partitioner_groups_rows_by_amplicon (rows : list BedRow) :
  Permutation (concat (ingest rows)) (ingest_table rows) /\
  (forall g, In g (ingest rows) ->
     g <> [] /\
     exists k, g = rows_with_key opt_str_eqb amplicon_key k (ingest_table rows)) /\
  (forall i j g g' rd rd',
     nth_error (ingest rows) i = Some g ->
     nth_error (ingest rows) j = Some g' ->
     In rd g -> In rd' g' -> amplicon_key rd = amplicon_key rd' -> i = j).
Proof.
  exact (partition_by_is_partition opt_str_eqb amplicon_key opt_str_eqb_eq
           (ingest_table rows)).
Qed.

(** X11. Two input rows whose names give the same amplicon key are put in the
    same frame. *)
Theorem same_amplicon_key_same_group (rows : list BedRow) (x y : BedRow) :
  In x rows -> In y rows ->
  amplicon_of (bed_name x) = amplicon_of (bed_name y) ->
  exists g d d',
    In g (ingest rows) /\ In (ingest_row x, d) g /\ In (ingest_row y, d') g.
Proof.
  intros Hx Hy E.
  set (flag := fun z : BedRow =>
                 1 <? count_name (bed_name z) (map bed_name rows)).
  assert (Tx : In (ingest_row x, flag x) (ingest_table rows))
    by (rewrite ingest_table_rows; apply in_map_iff; now exists x).
  assert (Ty : In (ingest_row y, flag y) (ingest_table rows))
    by (rewrite ingest_table_rows; apply in_map_iff; now exists y).
  destruct (same_key_same_part opt_str_eqb amplicon_key opt_str_eqb_eq
              (ingest_table rows) _ _ Tx Ty) as [g [Hg [H1 H2]]].
  - unfold amplicon_key. simpl. now rewrite E.
  - exists g, (flag x), (flag y). auto.
Qed.

Lemma same_amplicon_key_same_group_witness :
  exists g d d',
    In g (ingest rows_amp1) /\
    In (ingest_row (bed_row "AMP1_LEFT"), d) g /\
    In (ingest_row (bed_row "AMP1_RIGHT-2"), d') g.
Proof.
  apply (@same_amplicon_key_same_group rows_amp1
           (bed_row "AMP1_LEFT") (bed_row "AMP1_RIGHT-2")).
  - simpl. auto.
  - simpl. auto.
  - reflexivity.
Defined.

(** ** The amplicon key *)

Lemma startswith_app (p a b : str) :
  startswith p a = true -> startswith p (a ++ b) = true.
Proof.
  rewrite !startswith_spec. intros [y ->]. exists (y ++ b).
  now rewrite app_assoc.
Qed.

Lemma startswith_length (p s : str) :
  startswith p s = true -> List.length p <= List.length s.
Proof.
  rewrite startswith_spec. intros [y ->]. rewrite length_app. lia.
Qed.

(** No occurrence of [c :: w] starts in [x] and runs over a following
    character that [w] does not hold. *)
Lemma startswith_boundary (c e : ascii) (w x z : str) :
  ~ In e w -> x <> [] ->
  startswith (c :: w) x = false ->
  startswith (c :: w) (x ++ e :: z) = false.
Proof.
  intros He Hx Hx0.
  destruct (startswith (c :: w) (x ++ e :: z)) eqn:S; [|reflexivity].
  exfalso. apply startswith_spec in S. destruct S as [y S].
  apply app_eq_app in S. destruct S as [l [[E1 E2]|[E1 E2]]].
  - assert (T : startswith (c :: w) x = true)
      by (apply startswith_spec; eauto).
    congruence.
  - destruct l as [|e' l].
    + rewrite app_nil_r in E1.
      assert (T : startswith (c :: w) x = true)
        by (apply startswith_spec; exists []; now rewrite app_nil_r).
      congruence.
    + simpl in E2. inversion E2; subst e'.
      destruct x as [|d x]; [congruence|].
      simpl in E1. inversion E1; subst.
      apply He. apply in_or_app. right. now left.
Qed.

Lemma remove_all_from_boundary (c e : ascii) (w : str) :
  ~ In e w ->
  forall x k z,
    k <= List.length x ->
    remove_all_from (c :: w) k (x ++ e :: z) =
    remove_all_from (c :: w) k x ++ remove_all_from (c :: w) 0 (e :: z).
Proof.
  intros He x. induction x as [|d x IH]; intros k z Hk.
  - assert (k = 0) by (simpl in Hk; lia). subst k. reflexivity.
  - destruct k as [|k].
    + change (remove_all_from (c :: w) 0 ((d :: x) ++ e :: z))
        with (if startswith (c :: w) ((d :: x) ++ e :: z)
              then remove_all_from (c :: w) (List.length (c :: w) - 1) (x ++ e :: z)
              else d :: remove_all_from (c :: w) 0 (x ++ e :: z)).
      change (remove_all_from (c :: w) 0 (d :: x))
        with (if startswith (c :: w) (d :: x)
              then remove_all_from (c :: w) (List.length (c :: w) - 1) x
              else d :: remove_all_from (c :: w) 0 x).
      destruct (startswith (c :: w) (d :: x)) eqn:S.
      * rewrite (startswith_app _ _ (e :: z) S).
        apply IH. apply startswith_length in S. simpl in *. lia.
      * rewrite (@startswith_boundary c e w (d :: x) z He) by
          (assumption || discriminate).
        rewrite IH by lia. reflexivity.
    + change (remove_all_from (c :: w) (S k) ((d :: x) ++ e :: z))
        with (remove_all_from (c :: w) k (x ++ e :: z)).
      change (remove_all_from (c :: w) (S k) (d :: x))
        with (remove_all_from (c :: w) k x).
      apply IH. simpl in Hk. lia.
Qed.

Lemma remove_all_boundary (pat x : str) (e : ascii) (z r : str) :
  match pat with
  | [] => false
  | _ :: w => negb (existsb (Ascii.eqb e) w)
  end = true ->
  remove_all pat (e :: z) = r ->
  remove_all pat (x ++ e :: z) = remove_all pat x ++ r.
Proof.
  destruct pat as [|c w]; [discriminate|]. intros He <-.
  apply remove_all_from_boundary; [|lia].
  intros H. apply negb_true_iff in He.
  assert (T : existsb (Ascii.eqb e) w = true).
  { apply existsb_exists. exists e. split; [exact H|apply Ascii.eqb_refl]. }
  congruence.
Qed.

Ltac strip_suffix :=
  repeat first
    [ rewrite app_nil_r
    | erewrite remove_all_boundary;
      [ | reflexivity | vm_compute; reflexivity ] ].

(** X12. A name made of any base, an orientation tag and at most one of the
    suffixes [-2], [-3], [-4] has the amplicon key of the base: a primer
    pair and its spike-ins get the same key. *)
Theorem spike_ins_share_amplicon_key (base tag sfx : str) :
  In tag [LEFT_TAG; RIGHT_TAG] ->
  In sfx [[]; lit "-2"; lit "-3"; lit "-4"] ->
  amplicon_of (base ++ tag ++ sfx) = amplicon_of base.
Proof.
  intros Ht Hs. unfold amplicon_of.
  destruct Ht as [<-|[<-|[]]];
    destruct Hs as [<-|[<-|[<-|[<-|[]]]]];
    match goal with
    | |- context [base ++ ?t ++ ?s] =>
        let v := eval vm_compute in (t ++ s) in change (t ++ s) with v
    end;
    strip_suffix; reflexivity.
Qed.

Lemma spike_ins_share_amplicon_key_witness :
  amplicon_of (lit "nCoV-2019_7" ++ RIGHT_TAG ++ lit "-3") =
  amplicon_of (lit "nCoV-2019_7").
Proof.
  apply spike_ins_share_amplicon_key; simpl; auto.
Defined.

(** ** The deduplicator: where it stores, and what it leaves alone *)

Lemma dedup_body_index (k : nat) (df : DFrame) :
  has_duplicates df = true ->
  fst (dedup_body k df) =
  match unique_subset df with
  | [] => 0
  | _ :: _ => 1
  end.
Proof.
  intros Hdup. unfold has_duplicates in Hdup.
  rewrite <- map_snd_with_duped in Hdup.
  unfold dedup_body, unique_subset.
  destruct (with_duped df) as [|[a d] rows]; [discriminate|].
  rewrite partition_by_bool. simpl snd.
  pose proof (any_true_filter_snd ((a, d) :: rows)) as F.
  destruct d; simpl negb; rewrite sel_true, sel_false; simpl filter in *.
  - destruct (filter (fun r => negb (snd r)) rows) as [|u us] eqn:EU.
    + now rewrite rename_loop_single.
    + now rewrite rename_loop_dup_first by (reflexivity || exact F).
  - destruct (filter (fun r => snd r) rows) as [|x xs] eqn:ED.
    + exfalso.
      assert (G : any_true (map snd rows) = false).
      { apply any_true_false_iff. intros b Hb.
        apply in_map_iff in Hb. destruct Hb as [[y c] [<- Hin]].
        destruct c; auto.
        assert (H : In (y, true) (filter (fun r => snd r) rows))
          by (apply filter_In; auto).
        rewrite ED in H. destruct H. }
      unfold any_true in *. simpl in Hdup. congruence.
    + assert (T : any_true (map snd (x :: xs)) = true).
      { assert (H : In x (filter (fun r => snd r) rows))
          by (rewrite ED; now left).
        apply filter_In in H. destruct H as [_ H].
        unfold any_true. simpl. now rewrite H. }
      now rewrite rename_loop_dup_second by assumption.
Qed.

(** X13. For a frame with a repeated name the index the rebuilt frame is
    stored at does not depend on the frame's own index [k]: it is 0 when
    every row of the frame has a repeated name and 1 otherwise. *)
Theorem dedup_stores_at_index_0_or_1 (k : nat) (df : DFrame) :
  has_duplicates df = true ->
  dedup_body k df =
  (match unique_subset df with
   | [] => 0
   | _ :: _ => 1
   end,
   Ok (if first_row_duplicated df
       then renamed (duplicated_subset df) ++ unique_subset df
       else unique_subset df ++ renamed (duplicated_subset df))).
Proof.
  intros Hd. pose proof (dedup_body_index k df Hd) as Hi.
  destruct (dedup_body_frame k df Hd) as [i E].
  rewrite E in Hi. simpl in Hi. rewrite E. now rewrite Hi.
Qed.

Lemma dedup_stores_at_index_0_or_1_witness :
  dedup_body 5 amp4_repeated =
  (0, Ok [(primer_as "AMP4_LEFT" "AMP4_LEFT-1", true);
          (primer_as "AMP4_LEFT" "AMP4_LEFT-2", true);
          (primer_as "AMP4_RIGHT" "AMP4_RIGHT-3", true);
          (primer_as "AMP4_RIGHT" "AMP4_RIGHT-4", true)]).
Proof.
  exact (@dedup_stores_at_index_0_or_1 5 amp4_repeated eq_refl).
Defined.

Lemma nth_error_list_set {A} (l : list A) :
  forall i x l' j,
    list_set l i x = Some l' -> j <> i -> nth_error l' j = nth_error l j.
Proof.
  induction l as [|a l IH]; intros [|i] x l' [|j] E Hj; simpl in E;
    try discriminate; try congruence.
  - now inversion E.
  - destruct (list_set l i x) as [t|]; [|discriminate]. now inversion E.
  - destruct (list_set l i x) as [t|] eqn:Et; [|discriminate].
    inversion E; subst. simpl. eapply IH; eauto.
Qed.

Lemma dedup_loop_keeps_from_index_2 (todo : nat) :
  forall k bed j,
    2 <= j -> nth_error (fst (dedup_loop todo k bed)) j = nth_error bed j.
Proof.
  induction todo as [|todo IH]; intros k bed j Hj; simpl; [reflexivity|].
  destruct (nth_error bed k) as [df|]; [|reflexivity].
  destruct (has_duplicates df) eqn:Hd; [|now apply IH].
  pose proof (dedup_body_index k df Hd) as Hi.
  destruct (dedup_body k df) as [i [df'|e]]; [|reflexivity].
  destruct (list_set bed i df') as [bed'|] eqn:El; [|reflexivity].
  rewrite IH by exact Hj. eapply nth_error_list_set; [exact El|].
  simpl in Hi. destruct (unique_subset df); lia.
Qed.

Lemma dedup_never_touches_later_entries_body (bed : list DFrame) (j : nat) :
  2 <= j ->
  nth_error (fst (dedup_loop (List.length bed) 0 bed)) j = nth_error bed j.
Proof. apply dedup_loop_keeps_from_index_2. Qed.

(** X14. The deduplicator only ever assigns to the first two entries of the
    list: every entry from index 2 on is after the call what it was
    before. *)
Theorem dedup_never_touches_later_entries (bed : list DFrame) (j : nat) :
  2 <= j ->
  nth_error (fst (dedup_primers_st bed)) j = nth_error bed j.
Proof.
  intros Hj. unfold dedup_primers_st.
  pose proof (dedup_loop_keeps_from_index_2 (List.length bed) 0 bed Hj) as H.
  destruct (dedup_loop (List.length bed) 0 bed) as [bed' [e|]]; exact H.
Qed.

Lemma dedup_never_touches_later_entries_witness :
  nth_error (fst (dedup_primers_st (ingest rows_dup_third))) 2 =
  nth_error (ingest rows_dup_third) 2.
Proof.
  apply dedup_never_touches_later_entries. lia.
Defined.

Lemma filter_all {A} (f : A -> bool) (l : list A) :
  (forall x, In x l -> f x = true) -> filter f l = l.
Proof.
  induction l as [|a l IH]; intros H; simpl; [reflexivity|].
  rewrite (H a (or_introl eq_refl)), IH; [reflexivity|].
  intros x Hx. apply H. now right.
Qed.

Lemma repartition_keeps_frame (bed : list DFrame) (j : nat) (df : DFrame)
    (out : list Frame) :
  nth_error bed j = Some df -> df <> [] ->
  (forall rd rd', In rd df -> In rd' df -> amplicon_key rd = amplicon_key rd') ->
  repartition bed = Ok out ->
  exists g before after,
    In g out /\ g = before ++ map fst df ++ after.
Proof.
  intros Hj Hne Hkey H. unfold repartition, pl_concat in H.
  destruct bed as [|f fs] eqn:Eb; [discriminate|]. rewrite <- Eb in *.
  simpl in H. inversion H; subst out; clear H.
  apply nth_error_split in Hj. destruct Hj as [b1 [b2 [E _]]].
  destruct df as [|rd0 df']; [congruence|].
  set (k := Amplicon (fst rd0)).
  set (all := map fst (concat bed)).
  exists (rows_with_key opt_str_eqb Amplicon k all).
  assert (Eall : all = map fst (concat b1) ++ map fst (rd0 :: df')
                       ++ map fst (concat b2)).
  { unfold all. rewrite E, concat_app.
    change (concat ((rd0 :: df') :: b2)) with ((rd0 :: df') ++ concat b2).
    now rewrite !map_app. }
  exists (rows_with_key opt_str_eqb Amplicon k (map fst (concat b1))),
         (rows_with_key opt_str_eqb Amplicon k (map fst (concat b2))).
  split.
  - rewrite (partition_by_groups opt_str_eqb Amplicon opt_str_eqb_eq).
    apply in_map_iff. exists k. split; [reflexivity|].
    apply (first_seen_keys_spec opt_str_eqb Amplicon opt_str_eqb_eq).
    exists (fst rd0). split; [|reflexivity].
    rewrite Eall. apply in_or_app. right. apply in_or_app. left. now left.
  - rewrite Eall. unfold rows_with_key. rewrite !filter_app. f_equal. f_equal.
    apply filter_all. intros r Hr. apply in_map_iff in Hr.
    destruct Hr as [rd [<- Hrd]]. apply opt_str_eqb_eq.
    apply (Hkey rd0 rd); [now left|exact Hrd].
Qed.

(** X15. A frame at index 2 or later whose rows share their amplicon key and
    repeat a name is never rebuilt: whenever the deduplicator returns,
    one of the returned groups still has a repeated name. *)
Theorem repeated_names_survive_from_third_group
    (bed : list DFrame) (j : nat) (df : DFrame) (out : list Frame) :
  2 <= j ->
  nth_error bed j = Some df ->
  ~ NoDup (dnames df) ->
  (forall rd rd', In rd df -> In rd' df -> amplicon_key rd = amplicon_key rd') ->
  dedup_primers bed = Ok out ->
  exists g, In g out /\ ~ NoDup (names g).
Proof.
  intros Hj Hdf Hnd Hkey H.
  pose proof (dedup_never_touches_later_entries_body bed Hj) as Hkeep.
  unfold dedup_primers, dedup_primers_st in H.
  destruct (dedup_loop (List.length bed) 0 bed) as [bed' [e|]];
    simpl in *; [discriminate|].
  rewrite <- Hkeep in Hdf.
  assert (Hne : df <> []) by (intros ->; apply Hnd; constructor).
  destruct (repartition_keeps_frame bed' j Hdf Hne Hkey H)
    as [g [before [after [Hg Eg]]]].
  exists g. split; [exact Hg|]. intros N. apply Hnd.
  rewrite Eg in N. unfold names in N. rewrite !map_app in N.
  apply NoDup_app_remove_l, NoDup_app_remove_r in N.
  unfold dnames. now rewrite map_map in N.
Qed.

Lemma repeated_names_survive_from_third_group_witness :
  exists out,
    dedup_primers (ingest rows_dup_third) = Ok out /\
    exists g, In g out /\ ~ NoDup (names g).
Proof.
  eexists. split; [vm_compute; reflexivity|].
  apply (@repeated_names_survive_from_third_group
           (ingest rows_dup_third) 2
           [(primer "AMP2_LEFT", true); (primer "AMP2_LEFT", true);
            (primer "AMP2_RIGHT", false)]).
  - lia.
  - reflexivity.
  - intros N. inversion N as [|x l Hx _]; subst. apply Hx. now left.
  - intros rd rd' H H'. simpl in H, H'.
    destruct H as [<-|[<-|[<-|[]]]]; destruct H' as [<-|[<-|[<-|[]]]];
      reflexivity.
  - vm_compute. reflexivity.
Defined.

(** ** The names the deduplicator builds *)

Lemma digits_no_dash (d : uint) : ~ In dash (lit (NilEmpty.string_of_uint d)).
Proof.
  induction d; simpl; intros H; try tauto;
    destruct H as [H|H]; try discriminate; tauto.
Qed.

Lemma numbered_name_inj (n n' : str) (k k' : nat) :
  n ++ lit "-" ++ dec k = n' ++ lit "-" ++ dec k' -> n = n' /\ k = k'.
Proof.
  intros H. apply (f_equal (@rev ascii)) in H.
  change (lit "-" ++ dec k) with (dash :: dec k) in H.
  change (lit "-" ++ dec k') with (dash :: dec k') in H.
  rewrite !rev_app_distr in H. simpl rev in H. rewrite <- !app_assoc in H.
  simpl in H.
  apply cut_at_first in H.
  - destruct H as [Hk Hn].
    apply (f_equal (@rev ascii)) in Hk, Hn. rewrite !rev_involutive in Hk, Hn.
    apply dec_inj in Hk. auto.
  - intros F. apply in_rev in F. now apply digits_no_dash in F.
  - intros F. apply in_rev in F. now apply digits_no_dash in F.
Qed.

Lemma in_renamed_from (l : DFrame) :
  forall offset n,
    In n (dnames (map rename_row (with_row_count offset l))) ->
    exists k r, offset <= k /\ n = NAME r ++ lit "-" ++ dec k.
Proof.
  induction l as [|[r d] l IH]; intros offset n H; simpl in H; [tauto|].
  destruct H as [<-|H].
  - exists offset, r. auto.
  - apply IH in H. destruct H as [k [r' [Hk ->]]]. exists k, r'.
    split; [lia|reflexivity].
Qed.

Lemma renamed_from_NoDup (l : DFrame) :
  forall offset, NoDup (dnames (map rename_row (with_row_count offset l))).
Proof.
  induction l as [|[r d] l IH]; intros offset; simpl; constructor.
  - intros H. apply in_renamed_from in H. destruct H as [k [r' [Hk E]]].
    apply numbered_name_inj in E. lia.
  - apply IH.
Qed.

(** X16. The names of the renamed frame are pairwise distinct, whatever the
    names were: a row number is appended after the last [-], and no two
    rows have the same number. *)
Theorem renamed_names_are_distinct (dup_frame : DFrame) :
  NoDup (dnames (renamed dup_frame)) /\
  (forall n n' k k',
      n ++ lit "-" ++ dec k = n' ++ lit "-" ++ dec k' -> n = n' /\ k = k').
Proof.
  split; [apply renamed_from_NoDup|apply numbered_name_inj].
Qed.

(** ** Partitioning what is already partitioned *)

Section PartitionByAgain.
Context {R K : Type}.
Variable keqb : K -> K -> bool.
Variable key : R -> K.
Hypothesis keqb_eq : forall a b, keqb a b = true <-> a = b.

Lemma rows_with_key_twice (k k' : K) (l : list R) :
  rows_with_key keqb key k (rows_with_key keqb key k' l) =
  if keqb k k' then rows_with_key keqb key k l else [].
Proof using keqb_eq.
  unfold rows_with_key. induction l as [|r l IH]; simpl.
  - now destruct (keqb k k').
  - destruct (keqb k' (key r)) eqn:E1; simpl.
    + apply keqb_eq in E1. rewrite <- E1.
      destruct (keqb k k') eqn:E2; rewrite IH; reflexivity.
    + rewrite IH. destruct (keqb k k') eqn:E2; [|reflexivity].
      apply keqb_eq in E2. subst k'. now rewrite E1.
Qed.

Lemma rows_with_key_of_groups (ks : list K) (l : list R) (k : K) :
  NoDup ks ->
  rows_with_key keqb key k
    (concat (map (fun k' => rows_with_key keqb key k' l) ks)) =
  if existsb (keqb k) ks then rows_with_key keqb key k l else [].
Proof using keqb_eq.
  induction ks as [|k' ks IH]; intros Hnd; [reflexivity|].
  inversion Hnd as [|? ? Hk Hnd']; subst. cbn [map concat existsb].
  unfold rows_with_key at 1. rewrite filter_app.
  change (filter (fun r => keqb k (key r)) (rows_with_key keqb key k' l))
    with (rows_with_key keqb key k (rows_with_key keqb key k' l)).
  change (filter (fun r => keqb k (key r))
            (concat (map (fun k'0 => rows_with_key keqb key k'0 l) ks)))
    with (rows_with_key keqb key k
            (concat (map (fun k'0 => rows_with_key keqb key k'0 l) ks))).
  rewrite rows_with_key_twice, (IH Hnd').
  destruct (keqb k k') eqn:E; simpl; [|reflexivity].
  apply keqb_eq in E. subst k'.
  destruct (existsb (keqb k) ks) eqn:Ex; [|apply app_nil_r].
  exfalso. apply Hk. apply existsb_exists in Ex.
  destruct Ex as [x [Hx Ek]]. apply keqb_eq in Ek. now subst.
Qed.

Lemma fold_keys_present (g : list R) (k : K) :
  (forall r, In r g -> key r = k) ->
  forall acc, In k acc ->
    fold_left (fun ks r => add_key keqb ks (key r)) g acc = acc.
Proof using keqb_eq.
  induction g as [|r g IH]; intros Hg acc Hk; simpl; [reflexivity|].
  rewrite (Hg r (or_introl eq_refl)).
  assert (E : add_key keqb acc k = acc).
  { unfold add_key.
    now rewrite (proj2 (has_key_iff keqb keqb_eq acc k) Hk). }
  rewrite E. apply IH; [|exact Hk]. intros x Hx. apply Hg. now right.
Qed.

Lemma fold_keys_group (g : list R) (k : K) (acc : list K) :
  g <> [] -> (forall r, In r g -> key r = k) -> ~ In k acc ->
  fold_left (fun ks r => add_key keqb ks (key r)) g acc = acc ++ [k].
Proof using keqb_eq.
  intros Hne Hg Hk. destruct g as [|r g]; [congruence|]. simpl.
  rewrite (Hg r (or_introl eq_refl)).
  assert (E : add_key keqb acc k = acc ++ [k]).
  { unfold add_key.
    destruct (existsb (fun k' => keqb k' k) acc) eqn:Ex; [|reflexivity].
    apply (has_key_iff keqb keqb_eq) in Ex. contradiction. }
  rewrite E. apply fold_keys_present with (k := k).
  - intros x Hx. apply Hg. now right.
  - apply in_or_app. right. now left.
Qed.

Lemma keys_of_groups (l : list R) (ks : list K) :
  forall acc,
    NoDup (acc ++ ks) ->
    (forall k, In k ks -> rows_with_key keqb key k l <> []) ->
    fold_left (fun ks' r => add_key keqb ks' (key r))
      (concat (map (fun k => rows_with_key keqb key k l) ks)) acc =
    acc ++ ks.
Proof using keqb_eq.
  induction ks as [|k ks IH]; intros acc Hnd Hne; simpl.
  - now rewrite app_nil_r.
  - rewrite fold_left_app.
    rewrite (@fold_keys_group (rows_with_key keqb key k l) k acc).
    + rewrite IH; [now rewrite <- app_assoc| |].
      * now rewrite <- app_assoc.
      * intros k' Hk'. apply Hne. now right.
    + apply Hne. now left.
    + intros r Hr. apply filter_In in Hr. destruct Hr as [_ Hr].
      apply keqb_eq in Hr. now symmetry.
    + apply NoDup_remove_2 in Hnd. intros F. apply Hnd.
      apply in_or_app. now left.
Qed.

(** Partitioning the concatenation of the parts gives the parts back. *)
Lemma partition_by_concat_parts (l : list R) :
  partition_by keqb key (concat (partition_by keqb key l)) =
  partition_by keqb key l.
Proof using keqb_eq.
  rewrite (partition_by_groups keqb key keqb_eq l).
  rewrite (partition_by_groups keqb key keqb_eq).
  destruct (first_seen_keys_spec keqb key keqb_eq l) as [Hnd Hin].
  assert (Ek : first_seen_keys keqb key
                 (concat (map (fun k => rows_with_key keqb key k l)
                              (first_seen_keys keqb key l))) =
               first_seen_keys keqb key l).
  { apply (keys_of_groups l (first_seen_keys keqb key l) []); [exact Hnd|].
    intros k Hk F. apply Hin in Hk. destruct Hk as [r [Hr E]].
    assert (H : In r (rows_with_key keqb key k l)).
    { apply filter_In. split; [exact Hr|]. apply keqb_eq. now rewrite E. }
    rewrite F in H. destruct H. }
  rewrite Ek. apply map_ext_in. intros k Hk.
  rewrite rows_with_key_of_groups by exact Hnd.
  assert (Ex : existsb (keqb k) (first_seen_keys keqb key l) = true).
  { apply existsb_exists. exists k.
    split; [exact Hk|apply (keqb_refl keqb keqb_eq)]. }
  now rewrite Ex.
Qed.
End PartitionByAgain.

Lemma partition_by_map {R R' K} (keqb : K -> K -> bool) (key : R -> K)
    (f : R' -> R) (l : list R') :
  partition_by keqb key (map f l) =
  map (map f) (partition_by keqb (fun r => key (f r)) l).
Proof.
  unfold partition_by.
  set (lift := fun p : K * list R' => (fst p, map f (snd p))).
  assert (Hadd : forall r parts,
             add_row keqb key (f r) (map lift parts) =
             map lift (add_row keqb (fun r => key (f r)) r parts)).
  { intros r parts. induction parts as [|[k g] parts IH]; simpl.
    - reflexivity.
    - destruct (keqb k (key (f r))); simpl.
      + unfold lift at 2. simpl. now rewrite map_app.
      + now rewrite IH. }
  assert (Hfold : forall parts,
             fold_left (fun ps r => add_row keqb key r ps) (map f l)
               (map lift parts) =
             map lift (fold_left
                         (fun ps r => add_row keqb (fun r => key (f r)) r ps)
                         l parts)).
  { induction l as [|r l IH]; intros parts; simpl; [reflexivity|].
    now rewrite Hadd, IH. }
  specialize (Hfold []). simpl in Hfold. rewrite Hfold, !map_map.
  reflexivity.
Qed.

(** ** Tables that need no work *)

Lemma kept_rows_have_distinct_names (keep : DupedRow -> bool) (df : DFrame) :
  NoDup (dnames df) -> NoDup (dnames (filter keep df)).
Proof.
  unfold dnames. intros Hnd.
  induction df as [|rd df IH]; simpl in *; [constructor|].
  inversion Hnd as [|? ? Hhead Htail]; subst.
  destruct (keep rd); simpl; [|now apply IH].
  constructor; [|now apply IH].
  intros F. apply Hhead. apply in_map_iff in F. destruct F as [x [E Hx]].
  apply filter_In in Hx. apply in_map_iff. exists x. tauto.
Qed.

Lemma dnames_ingest_table (rows : list BedRow) :
  dnames (ingest_table rows) = map bed_name rows.
Proof.
  rewrite ingest_table_rows. unfold dnames. rewrite map_map. reflexivity.
Qed.

Lemma has_duplicates_false_iff (df : DFrame) :
  has_duplicates df = false <-> NoDup (dnames df).
Proof.
  assert (E : dnames df = names (map fst df))
    by (unfold names, dnames; now rewrite map_map).
  rewrite E. rewrite <- has_repeated_name_false_iff.
  unfold has_duplicates, has_repeated_name. now rewrite E.
Qed.

Lemma ingest_without_repeated_names (rows : list BedRow) :
  NoDup (map bed_name rows) ->
  forall g, In g (ingest rows) -> has_duplicates g = false.
Proof.
  intros Hnd g Hg. apply has_duplicates_false_iff.
  destruct (partition_by_is_partition opt_str_eqb amplicon_key opt_str_eqb_eq
              (ingest_table rows)) as [_ [Hparts _]].
  destruct (Hparts g Hg) as [_ [k ->]].
  unfold rows_with_key. apply kept_rows_have_distinct_names.
  now rewrite dnames_ingest_table.
Qed.

Lemma ingest_nonempty (rows : list BedRow) : rows <> [] -> ingest rows <> [].
Proof.
  intros Hne F.
  destruct (partition_by_is_partition opt_str_eqb amplicon_key opt_str_eqb_eq
              (ingest_table rows)) as [Hperm _].
  change (partition_by opt_str_eqb amplicon_key (ingest_table rows))
    with (ingest rows) in Hperm.
  rewrite F in Hperm. simpl in Hperm. apply Permutation_nil in Hperm.
  rewrite ingest_table_rows in Hperm. apply map_eq_nil in Hperm. congruence.
Qed.

Lemma dedup_primers_on_clean_table (rows : list BedRow) :
  rows <> [] -> NoDup (map bed_name rows) ->
  dedup_primers (ingest rows) = Ok (map (map fst) (ingest rows)).
Proof.
  intros Hne Hnd. unfold dedup_primers, dedup_primers_st.
  rewrite dedup_loop_without_duplicates
    by (now apply ingest_without_repeated_names).
  simpl. unfold repartition, pl_concat.
  pose proof (ingest_nonempty Hne) as Hi.
  destruct (ingest rows) as [|f fs] eqn:E; [congruence|]. rewrite <- E.
  simpl. f_equal.
  rewrite (partition_by_map opt_str_eqb Amplicon fst).
  change (fun r : PrimerRecord * bool => Amplicon (fst r)) with amplicon_key.
  change (ingest rows)
    with (partition_by opt_str_eqb amplicon_key (ingest_table rows)).
  now rewrite (partition_by_concat_parts opt_str_eqb amplicon_key opt_str_eqb_eq).
Qed.

(** X17. On the partition of a non-empty table without repeated names the
    deduplicator returns the same groups in the same order, each without
    its column [duped], and leaves the list it was given as it was. *)
Theorem dedup_returns_clean_partition (rows : list BedRow) :
  rows <> [] -> NoDup (map bed_name rows) ->
  dedup_primers_st (ingest rows) =
  (ingest rows, Ok (map (map fst) (ingest rows))).
Proof.
  intros Hne Hnd.
  pose proof (dedup_primers_on_clean_table Hne Hnd) as H.
  unfold dedup_primers in H. unfold dedup_primers_st in *.
  rewrite dedup_loop_without_duplicates in *
    by (now apply ingest_without_repeated_names).
  simpl in *. now rewrite H.
Qed.

Lemma dedup_returns_clean_partition_witness :
  dedup_primers_st (ingest rows_amp1) =
  (ingest rows_amp1, Ok (map (map fst) (ingest rows_amp1))).
Proof.
  apply dedup_returns_clean_partition.
  - discriminate.
  - change (NoDup (names amp1)).
    apply has_repeated_name_false_iff. reflexivity.
Defined.

Lemma names_map_fst (g : DFrame) : names (map fst g) = dnames g.
Proof. unfold names, dnames. now rewrite map_map. Qed.

(** X18. A non-empty table without repeated names in which every amplicon has
    an even number of rows, a name with [_LEFT] and a name with [_RIGHT]
    goes through the three stages unchanged: the final frame holds the
    ingested rows, amplicon after amplicon in order of first appearance. *)
Theorem balanced_scheme_is_returned (rows : list BedRow) :
  rows <> [] ->
  NoDup (map bed_name rows) ->
  (forall g, In g (ingest rows) ->
     List.length g mod 2 = 0 /\
     existsb (str_in LEFT_TAG) (dnames g) = true /\
     existsb (str_in RIGHT_TAG) (dnames g) = true) ->
  final_df rows = Ok (map fst (concat (ingest rows))) /\
  Permutation (map fst (concat (ingest rows))) (map ingest_row rows).
Proof.
  intros Hne Hnd Hg. split.
  - unfold final_df. rewrite dedup_primers_on_clean_table by assumption.
    simpl. unfold resplice_primers. rewrite resplice_loop_even.
    + simpl. unfold finalize_primer_pairings, final_frames.
      rewrite finalize_loop_filter with (keep :=
        fun df => existsb (str_in LEFT_TAG) (names df) &&
                  existsb (str_in RIGHT_TAG) (names df))
        by (intros df; unfold fwd_keepers, rev_keepers;
            now rewrite !filter_nonempty_iff).
      simpl. rewrite filter_all.
      * unfold pl_concat. pose proof (ingest_nonempty Hne) as Hi.
        destruct (ingest rows) as [|f fs] eqn:E; [congruence|].
        rewrite <- E. change (map (map fst) (f :: fs))
          with (map fst f :: map (map fst) fs).
        rewrite E. change (map fst f :: map (map fst) fs)
          with (map (map fst) (f :: fs)).
        now rewrite <- concat_map.
      * intros df Hdf. apply in_map_iff in Hdf. destruct Hdf as [g [<- Hin]].
        rewrite names_map_fst. destruct (Hg g Hin) as [_ [-> ->]]. reflexivity.
    + intros df Hdf. apply in_map_iff in Hdf. destruct Hdf as [g [<- Hin]].
      destruct (Hg g Hin) as [E _].
      assert (X : List.length (map fst g) mod 2 = 0)
        by (rewrite length_map; exact E).
      unfold odd_count. now rewrite X.
  - destruct (partition_by_is_partition opt_str_eqb amplicon_key opt_str_eqb_eq
                (ingest_table rows)) as [Hperm _].
    apply (Permutation_map fst) in Hperm.
    assert (E : map fst (ingest_table rows) = map ingest_row rows)
      by (rewrite ingest_table_rows, map_map; reflexivity).
    rewrite E in Hperm. exact Hperm.
Qed.

Lemma balanced_scheme_is_returned_witness :
  final_df rows_balanced =
    Ok [primer "AMP1_LEFT"; primer "AMP1_RIGHT";
        primer "AMP3_LEFT"; primer "AMP3_RIGHT"] /\
  Permutation
    [primer "AMP1_LEFT"; primer "AMP1_RIGHT";
     primer "AMP3_LEFT"; primer "AMP3_RIGHT"]
    (map ingest_row rows_balanced).
Proof.
  apply (@balanced_scheme_is_returned rows_balanced).
  - discriminate.
  - change (NoDup (names (map ingest_row rows_balanced))).
    apply has_repeated_name_false_iff. reflexivity.
  - intros g Hg. vm_compute in Hg.
    destruct Hg as [<-|[<-|[]]]; repeat split; reflexivity.
Defined.

(** ** More on single groups *)

(** X19. A list of one frame that has a repeated name and a unique name makes
    the deduplicator raise: the inner loop leaves the index 1, past the
    end of the list. *)
Theorem single_mixed_frame_raises (df : DFrame) :
  has_duplicates df = true ->
  unique_subset df <> [] ->
  dedup_primers [df] = Raise IndexError.
Proof.
  intros Hd Hu. unfold dedup_primers, dedup_primers_st. simpl.
  rewrite Hd.
  pose proof (dedup_body_index 0 df Hd) as Hi.
  destruct (dedup_body_frame 0 df Hd) as [i E].
  rewrite E in Hi |- *. simpl in Hi.
  destruct (unique_subset df) as [|u us]; [congruence|]. subst i.
  reflexivity.
Qed.

Lemma single_mixed_frame_raises_witness :
  dedup_primers
    [[(primer "AMP2_LEFT", true); (primer "AMP2_LEFT", true);
      (primer "AMP2_RIGHT", false)]] = Raise IndexError.
Proof.
  apply single_mixed_frame_raises; [reflexivity|discriminate].
Defined.

Lemma resplice_new_df_rows_in_order (i : nat) (df out : Frame) (a b : list str) :
  (forall k, In k a \/ In k b -> In k (names df)) ->
  resplice_new_df i df a b = Append out ->
  List.length out = List.length (fst (resolve_primer_names a b)) /\
  forall j o,
    nth_error out j = Some o ->
    exists key new_name src,
      nth_error (fst (resolve_primer_names a b)) j = Some key /\
      nth_error (snd (resolve_primer_names a b)) j = Some new_name /\
      In src df /\ NAME src = key /\ o = set_NAME new_name src.
Proof.
  intros Hsub H. unfold resplice_new_df in H.
  destruct (resolve_primer_names_lengths a b) as [Hk Hn].
  assert (Hkeys : forall k, In k (fst (resolve_primer_names a b)) ->
                            In k a \/ In k b).
  { unfold resolve_primer_names; simpl. intros k Hin.
    apply in_app_or in Hin. destruct Hin as [Hin|Hin];
      apply in_map_iff in Hin; destruct Hin as [[x y] [<- Hp]];
      apply in_prod_iff in Hp; simpl; tauto. }
  destruct (resolve_primer_names a b) as [keys new_names]; simpl in *.
  rewrite Hk, Hn, Nat.eqb_refl in H. simpl in H.
  destruct (join_left _ df) as [joined|] eqn:Ej in H; [|discriminate].
  apply join_left_ok in Ej. destruct Ej as [_ [_ ->]].
  inversion H; subst out; clear H. unfold with_names. split.
  - rewrite length_map, length_combine, length_map. lia.
  - intros j o Ho. rewrite nth_error_map in Ho.
    destruct (nth_error (combine _ new_names) j) as [[row n]|] eqn:Ec;
      [|discriminate].
    simpl in Ho. inversion Ho; subst o; clear Ho.
    assert (Hrow : nth_error
                     (map (fun k => match find (fun r => Str.eqb (NAME r) k) df with
                                    | Some r => r
                                    | None => null_row k
                                    end) keys) j = Some row /\
                   nth_error new_names j = Some n).
    { clear -Ec. revert j new_names Ec.
      generalize (map (fun k => match find (fun r => Str.eqb (NAME r) k) df with
                                | Some r => r
                                | None => null_row k
                                end) keys).
      induction l as [|x l IH]; intros [|j] [|y ys] Ec; simpl in Ec;
        try discriminate.
      - inversion Ec; subst. auto.
      - apply IH in Ec. exact Ec. }
    destruct Hrow as [Hrow Hname]. rewrite nth_error_map in Hrow.
    destruct (nth_error keys j) as [key|] eqn:Ekey; [|discriminate].
    simpl in Hrow. inversion Hrow as [Er]; clear Hrow.
    destruct (find_by_name df key) as [src [Ef [Hs Hsn]]].
    { apply Hsub, Hkeys. eapply nth_error_In; eauto. }
    rewrite Ef. exists key, n, src. auto.
Qed.

(** X20. The rows of a resolved odd group follow the join keys: row [j] is the
    row of the group named by the [j]-th key, under the [j]-th new name;
    the keys are the first members of all pairs, then the second
    members. *)
Theorem resolved_rows_follow_join_keys (i : nat) (df out : Frame) :
  odd_count df = true ->
  resplice_group i df = Append out ->
  exists to_combine combine_to,
    ((to_combine = rev_primers df /\ combine_to = fwd_primers df) \/
     (to_combine = fwd_primers df /\ combine_to = rev_primers df)) /\
    List.length to_combine < List.length combine_to /\
    List.length out = 2 * (List.length to_combine * List.length combine_to) /\
    forall j o,
      nth_error out j = Some o ->
      exists key new_name src,
        nth_error (fst (resolve_primer_names to_combine combine_to)) j = Some key /\
        nth_error (snd (resolve_primer_names to_combine combine_to)) j
          = Some new_name /\
        In src df /\ NAME src = key /\ o = set_NAME new_name src.
Proof.
  intros Hodd H. unfold resplice_group in H. rewrite Hodd in H.
  assert (Hsub : forall a b k,
             (a = fwd_primers df /\ b = rev_primers df) \/
             (a = rev_primers df /\ b = fwd_primers df) ->
             In k a \/ In k b -> In k (names df)).
  { unfold fwd_primers, rev_primers.
    intros a b k [[-> ->]|[-> ->]] [Hk|Hk]; apply filter_In in Hk; tauto. }
  destruct (List.length (rev_primers df) <? List.length (fwd_primers df)) eqn:E1.
  - apply Nat.ltb_lt in E1.
    exists (rev_primers df), (fwd_primers df).
    split; [auto|]. split; [exact E1|].
    assert (Hs : forall k, In k (rev_primers df) \/ In k (fwd_primers df) ->
                           In k (names df))
      by (intros k Hk; eapply Hsub; [|exact Hk]; auto).
    destruct (@resplice_new_df_rows_in_order i df out _ _ Hs H) as [Hl Hr].
    split; [|exact Hr].
    rewrite Hl. apply resolve_primer_names_lengths.
  - destruct (List.length (fwd_primers df) <? List.length (rev_primers df)) eqn:E2;
      [|discriminate].
    apply Nat.ltb_lt in E2.
    exists (fwd_primers df), (rev_primers df).
    split; [auto|]. split; [exact E2|].
    assert (Hs : forall k, In k (fwd_primers df) \/ In k (rev_primers df) ->
                           In k (names df))
      by (intros k Hk; eapply Hsub; [|exact Hk]; auto).
    destruct (@resplice_new_df_rows_in_order i df out _ _ Hs H) as [Hl Hr].
    split; [|exact Hr].
    rewrite Hl. apply resolve_primer_names_lengths.
Qed.

Lemma resolved_rows_follow_join_keys_witness :
  exists to_combine combine_to,
    ((to_combine = rev_primers amp1 /\ combine_to = fwd_primers amp1) \/
     (to_combine = fwd_primers amp1 /\ combine_to = rev_primers amp1)) /\
    List.length to_combine < List.length combine_to /\
    List.length [primer_as "AMP1_LEFT" "AMP1_splice1_LEFT";
                 primer_as "AMP1_LEFT" "AMP1_splice2_LEFT";
                 primer_as "AMP1_RIGHT" "AMP1_splice1_RIGHT";
                 primer_as "AMP1_RIGHT-2" "AMP1_splice2_RIGHT-2"] =
      2 * (List.length to_combine * List.length combine_to) /\
    forall j o,
      nth_error [primer_as "AMP1_LEFT" "AMP1_splice1_LEFT";
                 primer_as "AMP1_LEFT" "AMP1_splice2_LEFT";
                 primer_as "AMP1_RIGHT" "AMP1_splice1_RIGHT";
                 primer_as "AMP1_RIGHT-2" "AMP1_splice2_RIGHT-2"] j = Some o ->
      exists key new_name src,
        nth_error (fst (resolve_primer_names to_combine combine_to)) j = Some key /\
        nth_error (snd (resolve_primer_names to_combine combine_to)) j
          = Some new_name /\
        In src amp1 /\ NAME src = key /\ o = set_NAME new_name src.
Proof.
  apply (@resolved_rows_follow_join_keys 0 amp1); reflexivity.
Defined.

Lemma side_names_head (f : str * str -> str) (item : str * str)
    (pairs : list (str * str)) :
  In (splice_name 0 (f item)) (side_names f 0 (item :: pairs)).
Proof. now left. Qed.

Lemma new_names_have_both_tags (a b : list str) :
  a <> [] -> b <> [] ->
  (forall p, In p a -> forward_name p = true) ->
  (forall p, In p b -> reverse_name p = true) ->
  (existsb (str_in LEFT_TAG) (snd (resolve_primer_names a b)) = true /\
   existsb (str_in RIGHT_TAG) (snd (resolve_primer_names a b)) = true) /\
  (existsb (str_in LEFT_TAG) (snd (resolve_primer_names b a)) = true /\
   existsb (str_in RIGHT_TAG) (snd (resolve_primer_names b a)) = true).
Proof.
  intros Ha Hb Hf Hr.
  destruct a as [|x a]; [congruence|]. destruct b as [|y b]; [congruence|].
  assert (Fx : startswith (lit "LEFT") (last_token x) = true).
  { specialize (Hf x (or_introl eq_refl)). unfold forward_name in Hf.
    apply andb_true_iff in Hf. tauto. }
  assert (Ry : startswith (lit "RIGHT") (last_token y) = true).
  { specialize (Hr y (or_introl eq_refl)). unfold reverse_name in Hr.
    apply andb_true_iff in Hr. tauto. }
  pose proof (@own_tag_kept (lit "LEFT") x Fx 0) as Lx.
  pose proof (@own_tag_kept (lit "RIGHT") y Ry 0) as Ly.
  rewrite !resolve_new_names.
  repeat split; apply existsb_exists.
  - exists (splice_name 0 x). split; [|exact Lx].
    apply in_or_app. left. apply (side_names_head fst (x, y)).
  - exists (splice_name 0 y). split; [|exact Ly].
    apply in_or_app. right. apply (side_names_head snd (x, y)).
  - exists (splice_name 0 x). split; [|exact Lx].
    apply in_or_app. right. apply (side_names_head snd (y, x)).
  - exists (splice_name 0 y). split; [|exact Ly].
    apply in_or_app. left. apply (side_names_head fst (y, x)).
Qed.

(** X21. A resolved odd group that had a forward and a reverse primer, its
    names each of one orientation with the last token beginning with
    [LEFT] or [RIGHT], has new names of both orientations, so the
    finalizer keeps it. *)
Theorem resolved_group_passes_the_finalizer
    (i : nat) (df out : Frame) (mutated_frames : list Frame) :
  (forall p, In p (names df) -> (forward_name p || reverse_name p) = true) ->
  odd_count df = true ->
  fwd_primers df <> [] -> rev_primers df <> [] ->
  resplice_group i df = Append out ->
  In out mutated_frames ->
  In out (final_frames mutated_frames).
Proof.
  intros Hnames Hodd HF HR H Hin.
  assert (Hf : forall p, In p (fwd_primers df) -> forward_name p = true).
  { intros p Hp. apply filter_In in Hp. destruct Hp as [Hp HL].
    now apply oriented_forward; [apply Hnames|]. }
  assert (Hr : forall p, In p (rev_primers df) -> reverse_name p = true).
  { intros p Hp. apply filter_In in Hp. destruct Hp as [Hp HR'].
    now apply oriented_reverse; [apply Hnames|]. }
  destruct (new_names_have_both_tags HF HR Hf Hr) as [[A1 A2] [B1 B2]].
  unfold final_frames.
  rewrite finalize_loop_filter with (keep :=
    fun df => existsb (str_in LEFT_TAG) (names df) &&
              existsb (str_in RIGHT_TAG) (names df))
    by (intros g; unfold fwd_keepers, rev_keepers;
        now rewrite !filter_nonempty_iff).
  simpl. apply filter_In. split; [exact Hin|].
  unfold resplice_group in H. rewrite Hodd in H.
  destruct (List.length (rev_primers df) <? List.length (fwd_primers df)).
  - apply resplice_new_df_names in H. rewrite H, B1, B2. reflexivity.
  - destruct (List.length (fwd_primers df) <? List.length (rev_primers df));
      [|discriminate].
    apply resplice_new_df_names in H. rewrite H, A1, A2. reflexivity.
Qed.

Lemma resolved_group_passes_the_finalizer_witness :
  In [primer_as "AMP1_LEFT" "AMP1_splice1_LEFT";
      primer_as "AMP1_LEFT" "AMP1_splice2_LEFT";
      primer_as "AMP1_RIGHT" "AMP1_splice1_RIGHT";
      primer_as "AMP1_RIGHT-2" "AMP1_splice2_RIGHT-2"]
     (final_frames
        [amp3;
         [primer_as "AMP1_LEFT" "AMP1_splice1_LEFT";
          primer_as "AMP1_LEFT" "AMP1_splice2_LEFT";
          primer_as "AMP1_RIGHT" "AMP1_splice1_RIGHT";
          primer_as "AMP1_RIGHT-2" "AMP1_splice2_RIGHT-2"]]).
Proof.
  apply (@resolved_group_passes_the_finalizer 0 amp1).
  - intros p Hp. simpl in Hp. destruct Hp as [<-|[<-|[<-|[]]]]; reflexivity.
  - reflexivity.
  - discriminate.
  - discriminate.
  - reflexivity.
  - right. left. reflexivity.
Defined.
